(** * ModalFormPage: an accessible modal form (React + react-hook-form)

    A shallow embedding of [src/ModalFormPage.tsx]: the JSX it renders, the
    event handlers it installs, the [useEffect] keyed on [isModalOpen], and
    the validation rules it registers with react-hook-form.

    The host platform is modelled only as far as the component touches it:
    - JavaScript strings are sequences of UTF-16 code units, and the two
      regular-expression literals are matched on code units (no [u] flag);
    - the DOM is the tree the component renders, plus the imperative state
      the component drives by hand (the dialog's [open] attribute,
      [document.activeElement], the document's keydown listeners);
    - React commits a state change after the handler that queued it has
      returned, attaches refs during the commit and runs effect cleanups
      and effects after it;
    - the browser validates the email and url inputs by their types before
      it fires the form's submit event, the form having no [noValidate];
    - react-hook-form validates every registered field when the form's
      submit handler runs, checking [required], then [minLength], then
      [pattern], and keeps at most one error per field. *)

From Stdlib Require Import List String Ascii Bool NArith ZArith Lia.
Import ListNotations.
Open Scope string_scope.
Open Scope list_scope.

(** ** JavaScript strings *)

Module JS.

(** A string value is its list of UTF-16 code units. *)
Definition code_unit := N.
Definition jsstring := list code_unit.

Definition ch (a : ascii) : code_unit := N_of_ascii a.

(** The value of an ASCII-only string literal. *)
Definition lit (s : string) : jsstring := map N_of_ascii (list_ascii_of_string s).

(** [s.length] *)
Definition jslength (s : jsstring) : Z := Z.of_nat (List.length s).

Fixpoint jsstring_eqb (a b : jsstring) : bool :=
  match a, b with
  | [], [] => true
  | x :: a', y :: b' => N.eqb x y && jsstring_eqb a' b'
  | _, _ => false
  end.

End JS.
Import JS.

(** ** Regular expressions

    The fragment of the JavaScript pattern syntax used by the two literals
    of the source: character classes (possibly negated, with ranges and
    [\s]), [.], concatenation, [+], [?], [*] and groups.  Both literals are
    of the form [/^...$/] without flags, so [String.prototype.match]
    succeeds exactly when the whole string belongs to the language of the
    body; the backtracking order does not affect whether a match exists. *)

Module Regex.

Inductive citem :=
| One (c : code_unit)              (* a literal character *)
| Range (lo hi : code_unit)        (* lo-hi *)
| WhiteSpace.                      (* \s *)

(** [\s]: WhiteSpace and LineTerminator code points of ECMAScript. *)
Definition is_js_whitespace (c : code_unit) : bool :=
  ((9 <=? c) && (c <=? 13) || (c =? 32) || (c =? 160) || (c =? 5760)
   || (8192 <=? c) && (c <=? 8202) || (c =? 8232) || (c =? 8233)
   || (c =? 8239) || (c =? 8287) || (c =? 12288) || (c =? 65279))%N.

Definition citem_mem (c : code_unit) (i : citem) : bool :=
  match i with
  | One d => N.eqb c d
  | Range lo hi => (lo <=? c)%N && (c <=? hi)%N
  | WhiteSpace => is_js_whitespace c
  end.

Inductive regex :=
| Never
| Eps
| Class (negated : bool) (items : list citem)   (* [...] and [^...] *)
| Seq (r1 r2 : regex)
| Alt (r1 r2 : regex)
| Star (r : regex).

Definition Plus (r : regex) : regex := Seq r (Star r).        (* r+ *)
Definition Opt (r : regex) : regex := Alt r Eps.              (* r? *)
Definition Chr (a : ascii) : regex := Class false [One (ch a)].

(** [.] without the [s] flag: anything but a line terminator. *)
Definition Dot : regex :=
  Class true [One 10%N; One 13%N; One 8232%N; One 8233%N].

(** A run of literal characters. *)
Fixpoint Str (s : list ascii) : regex :=
  match s with
  | [] => Eps
  | a :: s' => Seq (Chr a) (Str s')
  end.
Definition Lit (s : string) : regex := Str (list_ascii_of_string s).

Definition class_mem (negated : bool) (items : list citem) (c : code_unit) : bool :=
  xorb negated (existsb (citem_mem c) items).

Fixpoint nullable (r : regex) : bool :=
  match r with
  | Never => false
  | Eps => true
  | Class _ _ => false
  | Seq r1 r2 => nullable r1 && nullable r2
  | Alt r1 r2 => nullable r1 || nullable r2
  | Star _ => true
  end.

(** Brzozowski derivative. *)
Fixpoint deriv (c : code_unit) (r : regex) : regex :=
  match r with
  | Never => Never
  | Eps => Never
  | Class n it => if class_mem n it c then Eps else Never
  | Seq r1 r2 =>
      if nullable r1 then Alt (Seq (deriv c r1) r2) (deriv c r2)
      else Seq (deriv c r1) r2
  | Alt r1 r2 => Alt (deriv c r1) (deriv c r2)
  | Star r1 => Seq (deriv c r1) (Star r1)
  end.

(** Whole-string match: the executable meaning of [/^r$/.test(s)]. *)
Fixpoint test (r : regex) (s : jsstring) : bool :=
  match s with
  | [] => nullable r
  | c :: s' => test (deriv c r) s'
  end.

(** The language of a pattern, declaratively. *)
Inductive Matches : regex -> jsstring -> Prop :=
| MEps : Matches Eps []
| MClass n it c : class_mem n it c = true -> Matches (Class n it) [c]
| MSeq r1 r2 s1 s2 : Matches r1 s1 -> Matches r2 s2 -> Matches (Seq r1 r2) (s1 ++ s2)
| MAltL r1 r2 s : Matches r1 s -> Matches (Alt r1 r2) s
| MAltR r1 r2 s : Matches r2 s -> Matches (Alt r1 r2) s
| MStarNil r : Matches (Star r) []
| MStarCons r s1 s2 : Matches r s1 -> Matches (Star r) s2 -> Matches (Star r) (s1 ++ s2).

End Regex.
Import Regex.

(** ** The form: fields, registered rules and validation *)

Module Form.

Inductive field := Name | Email | Experience | Github.

Definition field_eqb (a b : field) : bool :=
  match a, b with
  | Name, Name | Email, Email | Experience, Experience | Github, Github => true
  | _, _ => false
  end.

(** [interface FormData].  [github] is declared optional, but it is a
    registered text input with default [""], so its value is always a
    string. *)
Record FormData := {
  name : jsstring;
  email : jsstring;
  experience : jsstring;
  github : jsstring
}.

(** [useForm({ defaultValues: { name: "", email: "", experience: "", github: "" } })] *)
Definition defaultValues : FormData :=
  {| name := []; email := []; experience := []; github := [] |}.

Definition get (f : field) (d : FormData) : jsstring :=
  match f with
  | Name => name d
  | Email => email d
  | Experience => experience d
  | Github => github d
  end.

Definition set (f : field) (v : jsstring) (d : FormData) : FormData :=
  match f with
  | Name => {| name := v; email := email d; experience := experience d; github := github d |}
  | Email => {| name := name d; email := v; experience := experience d; github := github d |}
  | Experience => {| name := name d; email := email d; experience := v; github := github d |}
  | Github => {| name := name d; email := email d; experience := experience d; github := v |}
  end.

(** The options of a [register] call that the source uses. *)
Record RegisterOptions := {
  required : option string;                    (* required: message *)
  minLength : option (Z * string);             (* minLength: { value, message } *)
  pattern : option (regex * string)            (* pattern: { value, message } *)
}.

Record FieldError := { type : string; message : string }.

(** Character classes of the two patterns. *)
Definition not_space_or_at : regex := Class true [WhiteSpace; One (ch "@")].
Definition handle_char : regex :=
  Class false [Range (ch "a") (ch "z"); Range (ch "A") (ch "Z");
               Range (ch "0") (ch "9"); One (ch "-")].

(** [/^[^\s@]+@[^\s@]+\.[^\s@]+$/] *)
Definition emailPattern : regex :=
  Seq (Plus not_space_or_at)
 (Seq (Chr "@")
 (Seq (Plus not_space_or_at)
 (Seq (Chr ".")
      (Plus not_space_or_at)))).

(** [/^https:\/\/(www\.)?github\.com\/[a-zA-Z0-9-]+\/?.*$/] *)
Definition githubPattern : regex :=
  Seq (Lit "https://")
 (Seq (Opt (Lit "www."))
 (Seq (Lit "github.com/")
 (Seq (Plus handle_char)
 (Seq (Opt (Chr "/"))
      (Star Dot))))).

(** The four [register(...)] calls. *)
Definition rules (f : field) : RegisterOptions :=
  match f with
  | Name =>
      {| required := Some "이름을 입력해주세요";
         minLength := Some (2%Z, "최소 2글자 이상 입력해주세요");
         pattern := None |}
  | Email =>
      {| required := Some "이메일을 입력해주세요";
         minLength := None;
         pattern := Some (emailPattern, "올바른 이메일 형식으로 입력해주세요") |}
  | Experience =>
      {| required := Some "FE 경력 연차를 선택해주세요";
         minLength := None;
         pattern := None |}
  | Github =>
      {| required := None;
         minLength := None;
         pattern := Some (githubPattern, "올바른 Github URL 형식으로 입력해주세요") |}
  end.

Definition isEmpty (v : jsstring) : bool :=
  match v with [] => true | _ => false end.

(** react-hook-form's built-in validation of one field holding a string.
    Each check yields the error of its rule, if the rule is present and
    fails; the length and pattern rules are skipped on an empty value. *)
Definition checkRequired (o : RegisterOptions) (v : jsstring) : option FieldError :=
  match required o with
  | Some msg =>
      if isEmpty v then Some {| type := "required"; message := msg |} else None
  | None => None
  end.

Definition checkMinLength (o : RegisterOptions) (v : jsstring) : option FieldError :=
  match minLength o with
  | Some (n, msg) =>
      if negb (isEmpty v) && (jslength v <? n)%Z
      then Some {| type := "minLength"; message := msg |} else None
  | None => None
  end.

Definition checkPattern (o : RegisterOptions) (v : jsstring) : option FieldError :=
  match pattern o with
  | Some (re, msg) =>
      if negb (isEmpty v) && negb (test re v)
      then Some {| type := "pattern"; message := msg |} else None
  | None => None
  end.

Definition orElse {A} (a b : option A) : option A :=
  match a with Some x => Some x | None => b end.

(** The first failing rule, in the order required, minLength, pattern. *)
Definition validateField (o : RegisterOptions) (v : jsstring) : option FieldError :=
  orElse (checkRequired o v) (orElse (checkMinLength o v) (checkPattern o v)).

(** [formState.errors] *)
Record FieldErrors := {
  err_name : option FieldError;
  err_email : option FieldError;
  err_experience : option FieldError;
  err_github : option FieldError
}.

Definition noErrors : FieldErrors :=
  {| err_name := None; err_email := None; err_experience := None; err_github := None |}.

Definition error_of (f : field) (e : FieldErrors) : option FieldError :=
  match f with
  | Name => err_name e
  | Email => err_email e
  | Experience => err_experience e
  | Github => err_github e
  end.

Definition set_error (f : field) (x : option FieldError) (e : FieldErrors) : FieldErrors :=
  match f with
  | Name => {| err_name := x; err_email := err_email e;
               err_experience := err_experience e; err_github := err_github e |}
  | Email => {| err_name := err_name e; err_email := x;
                err_experience := err_experience e; err_github := err_github e |}
  | Experience => {| err_name := err_name e; err_email := err_email e;
                     err_experience := x; err_github := err_github e |}
  | Github => {| err_name := err_name e; err_email := err_email e;
                 err_experience := err_experience e; err_github := x |}
  end.

(** Validation of the whole form on a submit attempt: every field is
    checked, each against its own rules. *)
Definition validateForm (d : FormData) : FieldErrors :=
  {| err_name := validateField (rules Name) (name d);
     err_email := validateField (rules Email) (email d);
     err_experience := validateField (rules Experience) (experience d);
     err_github := validateField (rules Github) (github d) |}.

Definition is_none {A} (o : option A) : bool :=
  match o with None => true | Some _ => false end.

(** [isEmptyObject(errors)] *)
Definition errors_empty (e : FieldErrors) : bool :=
  is_none (err_name e) && is_none (err_email e)
  && is_none (err_experience e) && is_none (err_github e).

(** The registered fields in registration order. *)
Definition fields : list field := [Name; Email; Experience; Github].

End Form.
Import Form.

(** ** What the browser checks on its own

    The form is rendered without [noValidate], so a click on its submit
    button makes the browser validate the constraints of the controls
    before it fires the submit event.  The only constraints in this form
    are the types of the email and url inputs.  Which strings a browser
    takes for a valid e-mail address or a valid absolute URL is its own
    business (host names outside ASCII and the URL parser are beyond this
    development), so both tests are parameters, and so is whether the
    browser moves the focus to the control it complains about. *)

Module Platform.

Class Browser := {
  emailTypeOk : jsstring -> bool;   (* a value an input of type email accepts *)
  urlTypeOk : jsstring -> bool;     (* a value an input of type url accepts *)
  focusesInvalid : bool             (* reporting a failure focuses the failing control *)
}.

Definition is_alpha (c : code_unit) : bool :=
  ((97 <=? c) && (c <=? 122) || (65 <=? c) && (c <=? 90))%N.

Definition is_digit (c : code_unit) : bool := ((48 <=? c) && (c <=? 57))%N.

Definition is_let_dig (c : code_unit) : bool := is_alpha c || is_digit c.

Definition is_ldh (c : code_unit) : bool := is_let_dig c || N.eqb c (ch "-").

(** [atext] of RFC 5322. *)
Definition is_atext (c : code_unit) : bool :=
  is_let_dig c
  || existsb (N.eqb c)
       (map ch ["!"; "#"; "$"; "%"; "&"; "'"; "*"; "+"; "-"; "/"; "="; "?";
                "^"; "_"; "`"; "{"; "|"; "}"; "~"]%char).

(** [s.split(sep)] for a one-character separator. *)
Fixpoint split_on (sep : code_unit) (s : jsstring) : list jsstring :=
  match s with
  | [] => [[]]
  | c :: s' =>
      if N.eqb c sep then [] :: split_on sep s'
      else match split_on sep s' with
           | piece :: pieces => (c :: piece) :: pieces
           | [] => [[c]]
           end
  end.

(** [label = let-dig [ [ ldh-str ] let-dig ]], at most 63 characters. *)
Definition valid_label (l : jsstring) : bool :=
  match l with
  | [] => false
  | c :: _ =>
      is_let_dig c && is_let_dig (last l c) && forallb is_ldh l
      && (List.length l <=? 63)%nat
  end.

(** The part before the first [@] and the part after it. *)
Fixpoint break_at (sep : code_unit) (s : jsstring) : option (jsstring * jsstring) :=
  match s with
  | [] => None
  | c :: s' =>
      if N.eqb c sep then Some ([], s')
      else match break_at sep s' with
           | Some (a, b) => Some (c :: a, b)
           | None => None
           end
  end.

(** A valid e-mail address of the HTML Standard:
    [1*( atext / "." ) "@" label *( "." label )]. *)
Definition html_valid_email (v : jsstring) : bool :=
  match break_at (ch "@") v with
  | Some (local_part, domain) =>
      negb (isEmpty local_part)
      && forallb (fun c => is_atext c || N.eqb c (ch ".")) local_part
      && forallb valid_label (split_on (ch ".") domain)
  | None => false
  end.

Definition let_dig : regex :=
  Class false [Range (ch "a") (ch "z"); Range (ch "A") (ch "Z");
               Range (ch "0") (ch "9")].
Definition letter : regex :=
  Class false [Range (ch "a") (ch "z"); Range (ch "A") (ch "Z")].

(** Plain web addresses: [http] or [https], [://], a host of dot-separated
    labels of letters and digits whose last label starts with a letter,
    and then nothing or [/], [?] or [#] followed by visible ASCII. *)
Definition plain_web_address : regex :=
  Seq (Alt (Lit "https") (Lit "http"))
 (Seq (Lit "://")
 (Seq (Star (Seq (Plus let_dig) (Chr ".")))
 (Seq letter
 (Seq (Star let_dig)
      (Opt (Seq (Class false [One (ch "/"); One (ch "?"); One (ch "#")])
                (Star (Class false [Range 33%N 126%N])))))))).

(** One browser, to run the sample sessions with.  Its email test is the
    valid e-mail address of the HTML Standard; its URL test accepts the
    plain web addresses above, which every URL parser accepts, and nothing
    else (browsers accept more); it focuses the control it complains
    about.  The theorems are stated for every browser. *)
Definition sampleBrowser : Browser :=
  {| emailTypeOk := html_valid_email;
     urlTypeOk := test plain_web_address;
     focusesInvalid := true |}.

End Platform.
Import Platform.

(** ** The DOM the component renders *)

Module Dom.

(** The DOM objects of the page.  The names are those of the styled
    components; [Control f] is the [Input] (or, for [Experience], the
    [Select]) registered for field [f].  [Body] and [Other _] are objects
    outside the component. *)
Inductive el :=
| Body
| Other (n : nat)
| ModalPage
| OpenModalButton
| ModalOverlay
| ModalContent
| ModalTitle
| ModalDescription
| FormGroupWrapper
| FormGroup (f : field)
| Label (f : field)
| Control (f : field)
| SelectOption (i : nat)
| ErrorMessage (f : field)
| FormActions
| CancelButton
| SubmitButton.

Definition field_eq_dec (a b : field) : {a = b} + {a <> b}.
Proof. decide equality. Defined.

Definition el_eq_dec (a b : el) : {a = b} + {a <> b}.
Proof. decide equality; try apply Nat.eq_dec; apply field_eq_dec. Defined.

Definition el_eqb (a b : el) : bool := if el_eq_dec a b then true else false.

Definition attributes := list (string * string).

#[local] Unset Elimination Schemes.
Inductive node :=
| Element (key : el) (tag : string) (attrs : attributes) (children : list node)
| Text (s : string).
#[local] Set Elimination Schemes.

Fixpoint getAttribute (a : string) (l : attributes) : option string :=
  match l with
  | [] => None
  | (k, v) :: l' => if String.eqb k a then Some v else getAttribute a l'
  end.

(** The elements of a subtree in document order, the root first. *)
Fixpoint elements (n : node) : list node :=
  match n with
  | Element _ _ _ kids => n :: flat_map elements kids
  | Text _ => []
  end.

Definition descendants (n : node) : list node :=
  match n with
  | Element _ _ _ kids => flat_map elements kids
  | Text _ => []
  end.

Definition key_of (n : node) : list el :=
  match n with
  | Element k _ _ _ => [k]
  | Text _ => []
  end.

(** Simple selectors and selector lists. *)
Inductive simple_selector :=
| AttrEquals (a v : string)       (* [a="v"] *)
| HasAttr (a : string)            (* [a] *)
| Tag (t : string).               (* t *)

Definition matches_simple (n : node) (s : simple_selector) : bool :=
  match n with
  | Element _ tag attrs _ =>
      match s with
      | AttrEquals a v =>
          match getAttribute a attrs with
          | Some v' => String.eqb v' v
          | None => false
          end
      | HasAttr a =>
          match getAttribute a attrs with Some _ => true | None => false end
      | Tag t => String.eqb tag t
      end
  | Text _ => false
  end.

Definition matches_selector (sel : list simple_selector) (n : node) : bool :=
  existsb (matches_simple n) sel.

(** [root.querySelectorAll(sel)]: the matching descendants of [root], in
    document order, as references. *)
Definition querySelectorAll (sel : list simple_selector) (root : node) : list el :=
  flat_map key_of (filter (matches_selector sel) (descendants root)).

Section FirstSome.

Context {A B : Type} (f : A -> option B).

(** The first result some element of the list yields. *)
Fixpoint first_some (l : list A) : option B :=
  match l with
  | [] => None
  | x :: l' => match f x with Some y => Some y | None => first_some l' end
  end.

End FirstSome.

(** The subtree rooted at the element [k]. *)
Fixpoint find_node (k : el) (n : node) : option node :=
  match n with
  | Element k' _ _ kids =>
      if el_eqb k k' then Some n else first_some (find_node k) kids
  | Text _ => None
  end.

Definition in_tree (k : el) (n : node) : bool :=
  match find_node k n with Some _ => true | None => false end.

(** The propagation path of an event dispatched at [k]: the target first,
    then its ancestors up to the root. *)
Fixpoint path_to (k : el) (n : node) : option (list el) :=
  match n with
  | Element k' _ _ kids =>
      if el_eqb k k' then Some [k']
      else match first_some (path_to k) kids with
           | Some p => Some (p ++ [k'])
           | None => None
           end
  | Text _ => None
  end.

(** References as JavaScript values: [ref.current], [document.activeElement],
    [array[i]]. *)
Inductive jsref :=
| JNull
| JUndefined
| JRef (e : el).

(** [a === b] *)
Definition strict_eq (a b : jsref) : bool :=
  match a, b with
  | JNull, JNull => true
  | JUndefined, JUndefined => true
  | JRef x, JRef y => el_eqb x y
  | _, _ => false
  end.

(** [ref.current] of a ref that is [null] when nothing is attached. *)
Definition current (r : option el) : jsref :=
  match r with Some e => JRef e | None => JNull end.

(** [arr[i]]: [undefined] outside the bounds. *)
Definition index (arr : list el) (i : Z) : jsref :=
  if (i <? 0)%Z then JUndefined
  else match nth_error arr (Z.to_nat i) with
       | Some e => JRef e
       | None => JUndefined
       end.

(** [k.getAttribute(a)] for the element [k] of a tree. *)
Definition attribute_of (k : el) (a : string) (tree : node) : option string :=
  match find_node k tree with
  | Some (Element _ _ attrs _) => getAttribute a attrs
  | _ => None
  end.

End Dom.
Import Dom.

(** ** The component: what it renders *)

Module View.

Definition MODAL_TITLE := "modal-title".
Definition MODAL_DESCRIPTION := "modal-description".
Definition ERROR_NAME := "error-name".
Definition ERROR_EMAIL := "error-email".
Definition ERROR_EXPERIENCE := "error-experience".
Definition ERROR_GITHUB := "error-github".

(** The [id] of a field's control, which is also the name it is registered
    under and the target of its label. *)
Definition field_id (f : field) : string :=
  match f with
  | Name => "name"
  | Email => "email"
  | Experience => "experience"
  | Github => "github"
  end.

(** The [id] given to the error region of each field. *)
Definition error_id (f : field) : string :=
  match f with
  | Name => ERROR_NAME
  | Email => "error-email"
  | Experience => ERROR_EXPERIENCE
  | Github => ERROR_GITHUB
  end.

(** The identifier a control names in [aria-describedby] when in error. *)
Definition describedby_id (f : field) : string :=
  match f with
  | Name => ERROR_NAME
  | Email => ERROR_EMAIL
  | Experience => ERROR_EXPERIENCE
  | Github => ERROR_GITHUB
  end.

(** [aria-invalid={errors.f ? "true" : "false"}] and
    [aria-describedby={errors.f ? ERROR_F : undefined}] *)
Definition aria (f : field) (e : option FieldError) : attributes :=
  match e with
  | Some _ => [("aria-invalid", "true"); ("aria-describedby", describedby_id f)]
  | None => [("aria-invalid", "false")]
  end.

(** [{errors.f && <ErrorMessage id=... role="alert" aria-live="assertive">
      {errors.f.message}</ErrorMessage>}] *)
Definition errorMessage (f : field) (e : option FieldError) : list node :=
  match e with
  | Some err =>
      [Element (ErrorMessage f) "div"
         [("id", error_id f); ("role", "alert"); ("aria-live", "assertive")]
         [Text (message err)]]
  | None => []
  end.

Definition label (f : field) (caption : string) : node :=
  Element (Label f) "label" [("for", field_id f)] [Text caption].

Definition nameGroup (errors : FieldErrors) : node :=
  Element (FormGroup Name) "div" []
    ([label Name "이름 / 닉네임";
      Element (Control Name) "input"
        ([("id", "name")] ++ aria Name (err_name errors) ++ [("name", "name")]) []]
     ++ errorMessage Name (err_name errors)).

Definition emailGroup (errors : FieldErrors) : node :=
  Element (FormGroup Email) "div" []
    ([label Email "이메일";
      Element (Control Email) "input"
        ([("id", "email"); ("type", "email"); ("placeholder", "example@example.com")]
         ++ aria Email (err_email errors) ++ [("name", "email")]) []]
     ++ errorMessage Email (err_email errors)).

Definition experienceGroup (errors : FieldErrors) : node :=
  Element (FormGroup Experience) "div" []
    ([label Experience "FE 경력 연차";
      Element (Control Experience) "select"
        ([("id", "experience")] ++ aria Experience (err_experience errors)
         ++ [("name", "experience")])
        [Element (SelectOption 0) "option" [("value", ""); ("disabled", "")]
           [Text "선택해주세요"];
         Element (SelectOption 1) "option" [("value", "0-3")] [Text "0-3년차"];
         Element (SelectOption 2) "option" [("value", "4-7")] [Text "4-7년차"];
         Element (SelectOption 3) "option" [("value", "8+")] [Text "8년차 이상"]]]
     ++ errorMessage Experience (err_experience errors)).

Definition githubGroup (errors : FieldErrors) : node :=
  Element (FormGroup Github) "div" []
    ([label Github "Github 링크 (선택)";
      Element (Control Github) "input"
        ([("type", "url"); ("id", "github");
          ("placeholder", "https://github.com/username")]
         ++ aria Github (err_github errors) ++ [("name", "github")]) []]
     ++ errorMessage Github (err_github errors)).

Definition formActions : node :=
  Element FormActions "div" []
    [Element CancelButton "button" [("type", "button")] [Text "취소"];
     Element SubmitButton "button" [("type", "submit")] [Text "제출하기"]].

Definition modalContent (errors : FieldErrors) : node :=
  Element ModalContent "div" []
    [Element ModalTitle "h2" [("id", MODAL_TITLE); ("tabindex", "0")]
       [Text "신청 폼"];
     Element ModalDescription "p" [("id", MODAL_DESCRIPTION)]
       [Text "이메일과 FE 경력 연차 등 간단한 정보를 입력해주세요."];
     Element FormGroupWrapper "form" []
       [nameGroup errors; emailGroup errors; experienceGroup errors;
        githubGroup errors; formActions]].

Definition modalOverlay (errors : FieldErrors) : node :=
  Element ModalOverlay "dialog"
    [("aria-labelledby", MODAL_TITLE); ("aria-describedby", MODAL_DESCRIPTION)]
    [modalContent errors].

(** The [return (...)] of [ModalFormPage]. *)
Definition render (isModalOpen : bool) (errors : FieldErrors) : node :=
  Element ModalPage "div" []
    ([Element OpenModalButton "button" [] [Text "🚀 신청 폼 작성하기"]]
     ++ (if isModalOpen then [modalOverlay errors] else [])).

(** ['[tabindex="0"], [href], input, select, button'] *)
Definition focusableSelector : list simple_selector :=
  [AttrEquals "tabindex" "0"; HasAttr "href"; Tag "input"; Tag "select"; Tag "button"].

End View.
Import View.

(** ** The component: state, handlers and effect *)

Module Modal.

(** Everything the component reads or writes: its React state and refs,
    the parts of the document it drives imperatively, the form state kept
    by react-hook-form, and the console. *)
Record world := {
  mounted : bool;  (* whether the component is mounted *)
  isModalOpen : bool;  (* useState(false): the committed state *)
  queued : option bool;  (* a setIsModalOpen call not yet committed *)
  openButtonRef : option el;  (* ref.current, None = null *)
  modalTitleRef : option el;
  modalRef : option el;
  modalContentRef : option el;
  cleanup : option nat;  (* the destroy function kept from the last effect run: removes that closure *)
  closures : nat;  (* how many handleTabKey closures were created so far *)
  dialogOpen : option bool;  (* the open attribute of the <dialog> in the document, if there is one *)
  activeElement : option el;  (* document.activeElement, None = null *)
  keydownListeners : list nat;  (* the document's keydown listeners, by closure *)
  showModalCalls : nat;  (* calls of HTMLDialogElement.showModal so far *)
  closeCalls : nat;  (* calls of HTMLDialogElement.close so far *)
  formValues : FormData;  (* react-hook-form: current field values *)
  errors : FieldErrors;  (* react-hook-form: formState.errors *)
  isSubmitted : bool;  (* react-hook-form: a submit was attempted since the last reset *)
  console : list FormData  (* what console.log received, oldest first *)
}.

Definition set_mounted (b : bool) (w : world) : world :=
  {| mounted := b;
     isModalOpen := isModalOpen w;
     queued := queued w;
     openButtonRef := openButtonRef w;
     modalTitleRef := modalTitleRef w;
     modalRef := modalRef w;
     modalContentRef := modalContentRef w;
     cleanup := cleanup w;
     closures := closures w;
     dialogOpen := dialogOpen w;
     activeElement := activeElement w;
     keydownListeners := keydownListeners w;
     showModalCalls := showModalCalls w;
     closeCalls := closeCalls w;
     formValues := formValues w;
     errors := errors w;
     isSubmitted := isSubmitted w;
     console := console w |}.

Definition set_isModalOpen (b : bool) (w : world) : world :=
  {| mounted := mounted w;
     isModalOpen := b;
     queued := queued w;
     openButtonRef := openButtonRef w;
     modalTitleRef := modalTitleRef w;
     modalRef := modalRef w;
     modalContentRef := modalContentRef w;
     cleanup := cleanup w;
     closures := closures w;
     dialogOpen := dialogOpen w;
     activeElement := activeElement w;
     keydownListeners := keydownListeners w;
     showModalCalls := showModalCalls w;
     closeCalls := closeCalls w;
     formValues := formValues w;
     errors := errors w;
     isSubmitted := isSubmitted w;
     console := console w |}.

Definition set_queued (q : option bool) (w : world) : world :=
  {| mounted := mounted w;
     isModalOpen := isModalOpen w;
     queued := q;
     openButtonRef := openButtonRef w;
     modalTitleRef := modalTitleRef w;
     modalRef := modalRef w;
     modalContentRef := modalContentRef w;
     cleanup := cleanup w;
     closures := closures w;
     dialogOpen := dialogOpen w;
     activeElement := activeElement w;
     keydownListeners := keydownListeners w;
     showModalCalls := showModalCalls w;
     closeCalls := closeCalls w;
     formValues := formValues w;
     errors := errors w;
     isSubmitted := isSubmitted w;
     console := console w |}.

Definition set_refs (r1 : option el) (r2 : option el) (r3 : option el) (r4 : option el) (w : world) : world :=
  {| mounted := mounted w;
     isModalOpen := isModalOpen w;
     queued := queued w;
     openButtonRef := r1;
     modalTitleRef := r2;
     modalRef := r3;
     modalContentRef := r4;
     cleanup := cleanup w;
     closures := closures w;
     dialogOpen := dialogOpen w;
     activeElement := activeElement w;
     keydownListeners := keydownListeners w;
     showModalCalls := showModalCalls w;
     closeCalls := closeCalls w;
     formValues := formValues w;
     errors := errors w;
     isSubmitted := isSubmitted w;
     console := console w |}.

Definition set_cleanup (c : option nat) (w : world) : world :=
  {| mounted := mounted w;
     isModalOpen := isModalOpen w;
     queued := queued w;
     openButtonRef := openButtonRef w;
     modalTitleRef := modalTitleRef w;
     modalRef := modalRef w;
     modalContentRef := modalContentRef w;
     cleanup := c;
     closures := closures w;
     dialogOpen := dialogOpen w;
     activeElement := activeElement w;
     keydownListeners := keydownListeners w;
     showModalCalls := showModalCalls w;
     closeCalls := closeCalls w;
     formValues := formValues w;
     errors := errors w;
     isSubmitted := isSubmitted w;
     console := console w |}.

Definition set_closures (n : nat) (w : world) : world :=
  {| mounted := mounted w;
     isModalOpen := isModalOpen w;
     queued := queued w;
     openButtonRef := openButtonRef w;
     modalTitleRef := modalTitleRef w;
     modalRef := modalRef w;
     modalContentRef := modalContentRef w;
     cleanup := cleanup w;
     closures := n;
     dialogOpen := dialogOpen w;
     activeElement := activeElement w;
     keydownListeners := keydownListeners w;
     showModalCalls := showModalCalls w;
     closeCalls := closeCalls w;
     formValues := formValues w;
     errors := errors w;
     isSubmitted := isSubmitted w;
     console := console w |}.

Definition set_dialogOpen (d : option bool) (w : world) : world :=
  {| mounted := mounted w;
     isModalOpen := isModalOpen w;
     queued := queued w;
     openButtonRef := openButtonRef w;
     modalTitleRef := modalTitleRef w;
     modalRef := modalRef w;
     modalContentRef := modalContentRef w;
     cleanup := cleanup w;
     closures := closures w;
     dialogOpen := d;
     activeElement := activeElement w;
     keydownListeners := keydownListeners w;
     showModalCalls := showModalCalls w;
     closeCalls := closeCalls w;
     formValues := formValues w;
     errors := errors w;
     isSubmitted := isSubmitted w;
     console := console w |}.

Definition set_activeElement (a : option el) (w : world) : world :=
  {| mounted := mounted w;
     isModalOpen := isModalOpen w;
     queued := queued w;
     openButtonRef := openButtonRef w;
     modalTitleRef := modalTitleRef w;
     modalRef := modalRef w;
     modalContentRef := modalContentRef w;
     cleanup := cleanup w;
     closures := closures w;
     dialogOpen := dialogOpen w;
     activeElement := a;
     keydownListeners := keydownListeners w;
     showModalCalls := showModalCalls w;
     closeCalls := closeCalls w;
     formValues := formValues w;
     errors := errors w;
     isSubmitted := isSubmitted w;
     console := console w |}.

Definition set_keydownListeners (l : list nat) (w : world) : world :=
  {| mounted := mounted w;
     isModalOpen := isModalOpen w;
     queued := queued w;
     openButtonRef := openButtonRef w;
     modalTitleRef := modalTitleRef w;
     modalRef := modalRef w;
     modalContentRef := modalContentRef w;
     cleanup := cleanup w;
     closures := closures w;
     dialogOpen := dialogOpen w;
     activeElement := activeElement w;
     keydownListeners := l;
     showModalCalls := showModalCalls w;
     closeCalls := closeCalls w;
     formValues := formValues w;
     errors := errors w;
     isSubmitted := isSubmitted w;
     console := console w |}.

Definition set_showModalCalls (n : nat) (w : world) : world :=
  {| mounted := mounted w;
     isModalOpen := isModalOpen w;
     queued := queued w;
     openButtonRef := openButtonRef w;
     modalTitleRef := modalTitleRef w;
     modalRef := modalRef w;
     modalContentRef := modalContentRef w;
     cleanup := cleanup w;
     closures := closures w;
     dialogOpen := dialogOpen w;
     activeElement := activeElement w;
     keydownListeners := keydownListeners w;
     showModalCalls := n;
     closeCalls := closeCalls w;
     formValues := formValues w;
     errors := errors w;
     isSubmitted := isSubmitted w;
     console := console w |}.

Definition set_closeCalls (n : nat) (w : world) : world :=
  {| mounted := mounted w;
     isModalOpen := isModalOpen w;
     queued := queued w;
     openButtonRef := openButtonRef w;
     modalTitleRef := modalTitleRef w;
     modalRef := modalRef w;
     modalContentRef := modalContentRef w;
     cleanup := cleanup w;
     closures := closures w;
     dialogOpen := dialogOpen w;
     activeElement := activeElement w;
     keydownListeners := keydownListeners w;
     showModalCalls := showModalCalls w;
     closeCalls := n;
     formValues := formValues w;
     errors := errors w;
     isSubmitted := isSubmitted w;
     console := console w |}.

Definition set_form (v : FormData) (e : FieldErrors) (s : bool) (w : world) : world :=
  {| mounted := mounted w;
     isModalOpen := isModalOpen w;
     queued := queued w;
     openButtonRef := openButtonRef w;
     modalTitleRef := modalTitleRef w;
     modalRef := modalRef w;
     modalContentRef := modalContentRef w;
     cleanup := cleanup w;
     closures := closures w;
     dialogOpen := dialogOpen w;
     activeElement := activeElement w;
     keydownListeners := keydownListeners w;
     showModalCalls := showModalCalls w;
     closeCalls := closeCalls w;
     formValues := v;
     errors := e;
     isSubmitted := s;
     console := console w |}.

Definition set_console (c : list FormData) (w : world) : world :=
  {| mounted := mounted w;
     isModalOpen := isModalOpen w;
     queued := queued w;
     openButtonRef := openButtonRef w;
     modalTitleRef := modalTitleRef w;
     modalRef := modalRef w;
     modalContentRef := modalContentRef w;
     cleanup := cleanup w;
     closures := closures w;
     dialogOpen := dialogOpen w;
     activeElement := activeElement w;
     keydownListeners := keydownListeners w;
     showModalCalls := showModalCalls w;
     closeCalls := closeCalls w;
     formValues := formValues w;
     errors := errors w;
     isSubmitted := isSubmitted w;
     console := c |}.

(** The committed document: the render output for the committed state. *)
Definition documentTree (w : world) : node := render (isModalOpen w) (errors w).

(** *** Platform operations *)

(** [element.focus()].  Every element the component focuses is focusable
    and connected (the trigger button, the title with [tabindex="0"], form
    controls and buttons), so the call makes it the active element. *)
Definition focus (e : el) (w : world) : world := set_activeElement (Some e) w.

(** [ref.current?.focus()] *)
Definition focus_current (r : option el) (w : world) : world :=
  match r with
  | Some e => focus e w
  | None => w
  end.

(** The element the dialog focusing steps pick: the first focusable
    descendant of the dialog, in document order (in this document the
    focusable elements are those the focus trap's selector finds). *)
Definition dialogFocusDelegate (tree : node) : option el :=
  match find_node ModalOverlay tree with
  | Some dialog => hd_error (querySelectorAll focusableSelector dialog)
  | None => None
  end.

(** [dialog.showModal()] on the dialog in the document.  When the dialog
    is already shown modally the call returns at once; otherwise it sets
    the [open] attribute and runs the dialog focusing steps, which move
    the focus to the first focusable descendant.  ([close] would later
    hand the focus back to the element focused before; every closing is
    followed by the effect that focuses the trigger, so that is not kept
    track of.) *)
Definition showModal (w : world) : world :=
  let w1 := set_showModalCalls (S (showModalCalls w)) w in
  match dialogOpen w with
  | Some false =>
      set_dialogOpen (Some true)
        (match dialogFocusDelegate (documentTree w) with
         | Some e => focus e w1
         | None => w1
         end)
  | _ => w1
  end.

(** [dialog.close()]: removes the [open] attribute; nothing to do when the
    attribute is absent. *)
Definition close (w : world) : world :=
  set_dialogOpen
    (match dialogOpen w with Some _ => Some false | None => None end)
    (set_closeCalls (S (closeCalls w)) w).

(** [document.addEventListener("keydown", h)]: a listener already present
    is not added twice. *)
Definition addEventListener (h : nat) (w : world) : world :=
  if existsb (Nat.eqb h) (keydownListeners w) then w
  else set_keydownListeners (keydownListeners w ++ [h]) w.

Fixpoint remove_first (h : nat) (l : list nat) : list nat :=
  match l with
  | [] => []
  | x :: l' => if Nat.eqb h x then l' else x :: remove_first h l'
  end.

(** [document.removeEventListener("keydown", h)] *)
Definition removeEventListener (h : nat) (w : world) : world :=
  set_keydownListeners (remove_first h (keydownListeners w)) w.

(** *** react-hook-form operations *)

(** [reset()]: back to [defaultValues], errors and submit flag cleared. *)
Definition reset (w : world) : world := set_form defaultValues noErrors false w.

(** After a failed submit the first registered field in error is focused
    ([shouldFocusError] is on by default). *)
Definition focusError (w : world) : world :=
  match filter (fun f => negb (is_none (error_of f (errors w)))) fields with
  | f :: _ => focus (Control f) w
  | [] => w
  end.

(** *** Handlers of the component *)

Definition setIsModalOpen (b : bool) (w : world) : world := set_queued (Some b) w.

(** [const openModal = () => { setIsModalOpen(true);
      modalRef.current?.showModal(); reset(); }] *)
Definition openModal (w : world) : world :=
  let w1 := setIsModalOpen true w in
  let w2 := match modalRef w1 with Some _ => showModal w1 | None => w1 end in
  reset w2.

(** [const closeModal = () => { setIsModalOpen(false);
      modalRef.current?.close(); }] *)
Definition closeModal (w : world) : world :=
  let w1 := setIsModalOpen false w in
  match modalRef w1 with Some _ => close w1 | None => w1 end.

Record KeyboardEvent := { key : string; shiftKey : bool }.

(** [handleKeyDown] *)
Definition handleKeyDown (event : KeyboardEvent) (w : world) : world :=
  if String.eqb (key event) "Escape" then closeModal w else w.

(** [handleOverlayClick] *)
Definition handleOverlayClick (target : el) (w : world) : world :=
  if strict_eq (current (modalRef w)) (JRef target) then closeModal w else w.

(** [onSubmit]: logs the data, then closes. *)
Definition onSubmit (data : FormData) (w : world) : world :=
  closeModal (set_console (console w ++ [data]) w).

(** [handleSubmit(onSubmit)]: validates every field; hands the values to
    [onSubmit] when there is no error, and otherwise publishes the errors
    and focuses the first field in error. *)
Definition handleSubmit (w : world) : world :=
  let errs := validateForm (formValues w) in
  if errors_empty errs
  then onSubmit (formValues w) (set_form (formValues w) noErrors true w)
  else focusError (set_form (formValues w) errs true w).

(** The change handler [register] installs: the value is stored, and once
    a submit has been attempted the field is validated again on each
    change. *)
Definition onChange (f : field) (v : jsstring) (w : world) : world :=
  set_form (Form.set f v (formValues w))
           (if isSubmitted w
            then set_error f (validateField (rules f) v) (errors w)
            else errors w)
           (isSubmitted w) w.

(** *** The focus trap *)

(** How a handler body ends: normally, or by throwing a [TypeError] (a
    method call on [undefined]). *)
Inductive completion (A : Type) :=
| Normal (a : A)
| TypeError.
Arguments Normal {A} a.
Arguments TypeError {A}.

(** [target.focus()] where [target] may be [undefined]: the element that
    becomes active. *)
Definition call_focus (target : jsref) : completion el :=
  match target with
  | JRef e => Normal e
  | JNull | JUndefined => TypeError
  end.

(** What [handleTabKey] did: whether it called [e.preventDefault()], and
    [document.activeElement] when it returns. *)
Record TabOutcome := { defaultPrevented : bool; activeAfter : option el }.

(** [handleTabKey], given the subtree [modalContentRef.current] designates
    ([None] when the ref is [null]) and the active element. *)
Definition handleTabKey (content : option node) (e : KeyboardEvent)
    (active : option el) : completion TabOutcome :=
  let untouched := Normal {| defaultPrevented := false; activeAfter := active |} in
  if String.eqb (key e) "Tab" then
    match content with
    | Some root =>
        let focusableArray := querySelectorAll focusableSelector root in
        let firstElement := index focusableArray 0 in
        let lastElement :=
          index focusableArray (Z.of_nat (List.length focusableArray) - 1) in
        if shiftKey e && strict_eq (current active) firstElement then
          match call_focus lastElement with
          | Normal a => Normal {| defaultPrevented := true; activeAfter := Some a |}
          | TypeError => TypeError
          end
        else if negb (shiftKey e) && strict_eq (current active) lastElement then
          match call_focus firstElement with
          | Normal a => Normal {| defaultPrevented := true; activeAfter := Some a |}
          | TypeError => TypeError
          end
        else untouched
    | None => untouched
    end
  else untouched.

(** The subtree [modalContentRef.current] designates in the document. *)
Definition contentNode (w : world) : option node :=
  match modalContentRef w with
  | Some k => find_node k (documentTree w)
  | None => None
  end.

(** One registered closure of [handleTabKey] receiving the event.  An
    exception thrown by a listener is reported by the platform and changes
    nothing. *)
Definition runTabListener (e : KeyboardEvent) (w : world) : world :=
  match handleTabKey (contentNode w) e (activeElement w) with
  | Normal o => set_activeElement (activeAfter o) w
  | TypeError => w
  end.

(** *** The effect and React's commit *)

(** The body of [useEffect(() => {...}, [isModalOpen])].  Each run in the
    open branch creates a new [handleTabKey] closure; the returned cleanup
    removes that same closure.  The closed branch returns no cleanup. *)
Definition effect (w : world) : world :=
  if isModalOpen w then
    let w1 := focus_current (modalTitleRef w) w in
    let handleTabKey := closures w1 in
    let w2 := set_closures (S handleTabKey) w1 in
    let w3 := addEventListener handleTabKey w2 in
    set_cleanup (Some handleTabKey) w3
  else
    set_cleanup None (focus_current (openButtonRef w) w).

(** Running the cleanup kept from the previous effect run, if any. *)
Definition runCleanup (w : world) : world :=
  match cleanup w with
  | Some h => set_cleanup None (removeEventListener h w)
  | None => w
  end.

(** [ref={r}]: after a commit, [r.current] is the element when it is in
    the document and [null] otherwise. *)
Definition attach (k : el) (tree : node) : option el :=
  if in_tree k tree then Some k else None.

Definition attachRefs (w : world) : world :=
  let tree := documentTree w in
  set_refs (attach OpenModalButton tree) (attach ModalTitle tree)
           (attach ModalOverlay tree) (attach ModalContent tree) w.

(** The active element after the document changed from [old] to [new]:
    focus falls back to the body when the focused element was removed. *)
Definition refocus (old new : node) (a : option el) : option el :=
  match a with
  | Some e => if in_tree e old && negb (in_tree e new) then Some Body else Some e
  | None => None
  end.

(** The DOM update of a re-render with [isModalOpen = b]: a dialog that
    enters the document is a new element, without [open] attribute. *)
Definition reconcile (b : bool) (w : world) : world :=
  let old := documentTree w in
  let w1 := set_isModalOpen b w in
  let new := documentTree w1 in
  let d := if in_tree ModalOverlay new
           then (if in_tree ModalOverlay old then dialogOpen w else Some false)
           else None in
  attachRefs (set_activeElement (refocus old new (activeElement w))
               (set_dialogOpen d w1)).

(** What React does once the running handler has returned: a queued state
    equal to the current one is dropped; otherwise the component is
    rendered again, the DOM and the refs are updated, and, as the
    dependency [isModalOpen] changed, the previous effect is cleaned up and
    the effect runs again. *)
Definition commit (w : world) : world :=
  match queued w with
  | None => w
  | Some b =>
      let w0 := set_queued None w in
      if Bool.eqb b (isModalOpen w) then w0
      else effect (runCleanup (reconcile b w0))
  end.

(** The world before the component is mounted; [prior] is the element
    that has focus then, if any. *)
Definition initial (prior : option el) : world :=
  {| mounted := false;
     isModalOpen := false;
     queued := None;
     openButtonRef := None;
     modalTitleRef := None;
     modalRef := None;
     modalContentRef := None;
     cleanup := None;
     closures := 0;
     dialogOpen := None;
     activeElement := prior;
     keydownListeners := [];
     showModalCalls := 0;
     closeCalls := 0;
     formValues := defaultValues;
     errors := noErrors;
     isSubmitted := false;
     console := [] |}.

(** First render and commit: the tree is inserted, refs are attached and
    the effect runs for the first time.  The application root wraps the
    component in [StrictMode]; in a development build ([strict = true])
    React then cleans the first effect up and runs it once more. *)
Definition mount (strict : bool) (w : world) : world :=
  let w1 := effect (attachRefs (set_mounted true w)) in
  if strict then effect (runCleanup w1) else w1.

(** Tearing the component down: the effect is cleaned up, the tree leaves
    the document and the refs are cleared. *)
Definition unmount (w : world) : world :=
  let w1 := runCleanup w in
  let a := match activeElement w1 with
           | Some e => if in_tree e (documentTree w1) then Some Body else Some e
           | None => None
           end in
  set_mounted false
    (set_refs None None None None
       (set_dialogOpen None (set_activeElement a w1))).

(** *** Events *)

Inductive event :=
| Click (target : el)                   (* a click on an element of the page *)
| KeyDown (e : KeyboardEvent)           (* a key pressed; the target is the active element *)
| Change (f : field) (v : jsstring)     (* the user edits a field *)
| FocusMoved (to : el)                  (* focus moved by the user or by a default action *)
| Unmount.

(** The constraint validation of the form's controls, on the values the
    controls hold: a type mismatch can only affect the email input and the
    url input, and never an empty value. *)
Definition controlOk (typeOk : jsstring -> bool) (v : jsstring) : bool :=
  isEmpty v || typeOk v.

Section WithBrowser.

Context {browser : Browser}.

(** [form.checkValidity()] *)
Definition checkValidity (d : FormData) : bool :=
  controlOk emailTypeOk (email d) && controlOk urlTypeOk (github d).

(** What the browser does when the validation fails: it reports the
    problem in its own user interface, and may focus the first control
    that fails. *)
Definition reportValidity (w : world) : world :=
  if focusesInvalid then
    if controlOk emailTypeOk (email (formValues w))
    then focus (Control Github) w
    else focus (Control Email) w
  else w.

(** Activating the submit button: the submit event, and with it
    [handleSubmit(onSubmit)], is reached only if the browser's validation
    passes; otherwise no event is fired. *)
Definition requestSubmit (w : world) : world :=
  if checkValidity (formValues w) then handleSubmit w else reportValidity w.

(** The [onClick] prop of each element; the flag is [stopPropagation]. *)
Definition onClick (k target : el) (w : world) : world * bool :=
  match k with
  | OpenModalButton => (openModal w, false)
  | ModalOverlay => (handleOverlayClick target w, false)
  | ModalContent => (w, true)
  | CancelButton => (closeModal w, false)
  | _ => (w, false)
  end.

Fixpoint propagateClick (path : list el) (target : el) (w : world) : world :=
  match path with
  | [] => w
  | k :: rest =>
      let (w', stop) := onClick k target w in
      if stop then w' else propagateClick rest target w'
  end.

(** A click bubbles from its target; a click on the submit button then
    asks the browser to submit the form, whose [onSubmit] is
    [handleSubmit(onSubmit)].  (Enter pressed in a field activates the
    submit button and so comes as this same click.) *)
Definition click (target : el) (w : world) : world :=
  match path_to target (documentTree w) with
  | Some path =>
      let w1 := propagateClick path target w in
      if el_eqb target SubmitButton then requestSubmit w1 else w1
  | None => w
  end.

(** The [onKeyDown] prop of each element. *)
Definition onKeyDown (k : el) (e : KeyboardEvent) (w : world) : world :=
  match k with
  | ModalOverlay => handleKeyDown e w
  | _ => w
  end.

(** A keydown bubbles from the active element through the React handlers,
    then reaches the listeners registered on the document. *)
Definition keydown (e : KeyboardEvent) (w : world) : world :=
  let path :=
    match activeElement w with
    | Some t => match path_to t (documentTree w) with Some p => p | None => [] end
    | None => []
    end in
  let w1 := fold_left (fun w k => onKeyDown k e w) path w in
  fold_left (fun w _ => runTabListener e w) (keydownListeners w1) w1.

(** The values the [select] offers. *)
Definition experienceOptions : list jsstring := [lit "0-3"; lit "4-7"; lit "8+"].

(** The user's edit leaves the control of field [f] with the value [v],
    as the control reports it (for the email and url inputs, after the
    value sanitization of their types). *)
Definition change (f : field) (v : jsstring) (w : world) : world :=
  if in_tree (Control f) (documentTree w)
     && match f with
        | Experience => existsb (jsstring_eqb v) experienceOptions
        | _ => true
        end
  then onChange f v w else w.

(** Focus can be moved to the body or to a focusable element of the
    document. *)
Definition focusMoved (to : el) (w : world) : world :=
  if el_eqb to Body
     || existsb (el_eqb to) (querySelectorAll focusableSelector (documentTree w))
  then focus to w else w.

Definition handle (ev : event) (w : world) : world :=
  match ev with
  | Click t => click t w
  | KeyDown e => keydown e w
  | Change f v => change f v w
  | FocusMoved to => focusMoved to w
  | Unmount => w
  end.

(** One event: its handlers run to completion, then React commits.  After
    the component is torn down nothing of it reacts any more. *)
Definition step (w : world) (ev : event) : world :=
  if mounted w then
    match ev with
    | Unmount => unmount w
    | _ => commit (handle ev w)
    end
  else w.

Definition run (w : world) (evs : list event) : world := fold_left step evs w.

(** The states of the mounted component that a sequence of events can
    produce. *)
Definition reachable (w : world) : Prop :=
  exists strict prior evs, w = run (mount strict (initial prior)) evs.

End WithBrowser.

(** The two states of the modal. *)
Inductive ModalState := Closed | Open.
Definition modalState (w : world) : ModalState :=
  if isModalOpen w then Open else Closed.

End Modal.
Import Modal.


(** ** The shapes the specification names for the two patterns

    These follow the words of the specification ("a basic
    [local@domain.tld] pattern", "[https://[www.]github.com/<handle>[/...]]")
    and are compared below with the patterns of the source. *)

Module Reading.

(** A character allowed in the parts of an address: neither white space
    nor [@]. *)
Definition address_char (c : code_unit) : Prop :=
  is_js_whitespace c = false /\ c <> ch "@".

(** [local@domain.tld]: three non-empty parts of allowed characters,
    joined by [@] and by a dot. *)
Definition local_at_domain_tld (v : jsstring) : Prop :=
  exists local domain tld,
    v = local ++ ch "@" :: domain ++ ch "." :: tld
    /\ local <> [] /\ domain <> [] /\ tld <> []
    /\ Forall address_char local /\ Forall address_char domain
    /\ Forall address_char tld.

(** A character of a handle: a letter, a digit or a hyphen. *)
Definition handle_code (c : code_unit) : Prop :=
  (ch "a" <= c <= ch "z")%N \/ (ch "A" <= c <= ch "Z")%N
  \/ (ch "0" <= c <= ch "9")%N \/ c = ch "-".

Definition line_terminator (c : code_unit) : Prop :=
  c = 10%N \/ c = 13%N \/ c = 8232%N \/ c = 8233%N.




(** The first and the last element of an ordered set. *)
Definition first_of (l : list el) (x : el) : Prop := hd_error l = Some x.
Definition last_of (l : list el) (x : el) : Prop := exists l', l = l' ++ [x].



End Reading.
Import Reading.

(** ** What holds of the component between two events *)

Module Invariant.

(** The part of the world that only a commit changes: the committed state,
    the refs, the effect's bookkeeping, the registered listeners, and
    whether a dialog element exists. *)
Definition shape (w : world) :=
  (mounted w, isModalOpen w,
   (openButtonRef w, modalTitleRef w, modalRef w, modalContentRef w),
   (cleanup w, closures w, keydownListeners w),
   is_none (dialogOpen w)).

(** Closed: no dialog in the document, the dialog refs are [null], no
    cleanup is pending and no keydown listener is registered. *)
Definition closed_shape (w : world) : Prop :=
  isModalOpen w = false
  /\ modalTitleRef w = None /\ modalRef w = None /\ modalContentRef w = None
  /\ is_none (dialogOpen w) = true
  /\ cleanup w = None /\ keydownListeners w = [].

(** Open: the dialog is in the document and the refs point into it; the
    one registered listener is the closure the pending cleanup removes. *)
Definition open_shape (w : world) : Prop :=
  isModalOpen w = true
  /\ modalTitleRef w = Some ModalTitle /\ modalRef w = Some ModalOverlay
  /\ modalContentRef w = Some ModalContent
  /\ is_none (dialogOpen w) = false
  /\ exists h, cleanup w = Some h /\ keydownListeners w = [h].

(** The mounted component while a handler may have queued a state. *)
Definition settled_but_queue (w : world) : Prop :=
  mounted w = true
  /\ openButtonRef w = Some OpenModalButton
  /\ (closed_shape w \/ open_shape w).

(** The mounted component between two events. *)
Definition settled (w : world) : Prop :=
  queued w = None /\ settled_but_queue w.

(** The component after it was torn down. *)
Definition torn_down (w : world) : Prop :=
  mounted w = false /\ cleanup w = None /\ keydownListeners w = [].

(** The world a commit produces when the modal goes from closed to open. *)
Definition opened (w : world) : world :=
  {| mounted := mounted w;
     isModalOpen := true;
     queued := None;
     openButtonRef := Some OpenModalButton;
     modalTitleRef := Some ModalTitle;
     modalRef := Some ModalOverlay;
     modalContentRef := Some ModalContent;
     cleanup := Some (closures w);
     closures := S (closures w);
     dialogOpen := Some false;
     activeElement := Some ModalTitle;
     keydownListeners := [closures w];
     showModalCalls := showModalCalls w;
     closeCalls := closeCalls w;
     formValues := formValues w;
     errors := errors w;
     isSubmitted := isSubmitted w;
     console := console w |}.

(** The world a commit produces when the modal goes from open to closed. *)
Definition closed_again (w : world) : world :=
  {| mounted := mounted w;
     isModalOpen := false;
     queued := None;
     openButtonRef := Some OpenModalButton;
     modalTitleRef := None;
     modalRef := None;
     modalContentRef := None;
     cleanup := None;
     closures := closures w;
     dialogOpen := None;
     activeElement := Some OpenModalButton;
     keydownListeners := [];
     showModalCalls := showModalCalls w;
     closeCalls := closeCalls w;
     formValues := formValues w;
     errors := errors w;
     isSubmitted := isSubmitted w;
     console := console w |}.


(** [n] rounds of opening with the trigger and closing with Cancel. *)
Fixpoint open_close_cycles (n : nat) : list event :=
  match n with
  | 0 => []
  | S n' => Click OpenModalButton :: Click CancelButton :: open_close_cycles n'
  end.

End Invariant.
Import Invariant.

(** ** Sample sessions *)

Module Sessions.

#[local] Existing Instance sampleBrowser.

Definition tabKey : KeyboardEvent := {| key := "Tab"; shiftKey := false |}.
Definition shiftTabKey : KeyboardEvent := {| key := "Tab"; shiftKey := true |}.

(** The page right after mounting, nothing focused before. *)
Definition fresh : world := mount false (initial None).

(** The modal opened once. *)
Definition opened_once : world := run fresh [Click OpenModalButton].

(** A one-letter name and a malformed address typed in. *)
Definition poorly_filled : world :=
  run fresh [Click OpenModalButton; Change Name (lit "A");
             Change Email (lit "not-an-email");
             Change Github (lit "https://gitlab.com/x")].

(** The form filled in as in the end-to-end example. *)
Definition well_filled : world :=
  run fresh [Click OpenModalButton; Change Name (lit "Jo Park");
             Change Email (lit "jo@x.com"); Change Experience (lit "0-3")].




(** A dialog content without anything focusable. *)
Definition bare_content : node :=
  Element ModalContent "div" []
    [Element ModalDescription "p" [("id", MODAL_DESCRIPTION)] [Text "..."]].

End Sessions.
Import Sessions.

(** ** Looking things up in the document *)

Module Document.

(** The value of attribute [a] on each element that has it, in document
    order. *)
Definition attribute_values (a : string) (tree : node) : list string :=
  flat_map (fun n =>
              match n with
              | Element _ _ attrs _ =>
                  match getAttribute a attrs with Some v => [v] | None => [] end
              | Text _ => []
              end)
           (elements tree).

(** The identifiers given in the document. *)
Definition ids (tree : node) : list string := attribute_values "id" tree.

(** [document.getElementById(i)]: the first element, in document order,
    whose [id] is [i]. *)
Definition getElementById (i : string) (tree : node) : option el :=
  first_some (fun n =>
                match n with
                | Element k _ attrs _ =>
                    match getAttribute "id" attrs with
                    | Some v => if String.eqb v i then Some k else None
                    | None => None
                    end
                | Text _ => None
                end)
             (elements tree).

(** The element that attribute [a] of element [k] refers to by id. *)
Definition resolve (k : el) (a : string) (tree : node) : option el :=
  match attribute_of k a tree with
  | Some i => getElementById i tree
  | None => None
  end.

(** The elements of a subtree, as references. *)
Definition keys (tree : node) : list el := flat_map key_of (elements tree).

Fixpoint nodupb (l : list string) : bool :=
  match l with
  | [] => true
  | x :: l' => negb (existsb (String.eqb x) l') && nodupb l'
  end.

End Document.
Import Document.

(** ** What the form lets through *)

Module Accepted.

(** The strings the GitHub pattern of the source accepts: the scheme, an
    optional [www.], the host, a non-empty handle, then anything that
    stays on one line. *)
Definition github_accepted (v : jsstring) : Prop :=
  exists (www : bool) handle rest,
    v = lit "https://" ++ (if www then lit "www." else [])
        ++ lit "github.com/" ++ handle ++ rest
    /\ handle <> [] /\ Forall handle_code handle
    /\ Forall (fun c => ~ line_terminator c) rest.

(** A record every field of which passes the rules registered for it. *)
Definition acceptable (d : FormData) : Prop :=
  2 <= List.length (name d)
  /\ local_at_domain_tld (email d)
  /\ In (experience d) experienceOptions
  /\ (github d = [] \/ github_accepted (github d)).

(** The required-field errors of the three mandatory fields. *)
Definition requiredErrors : FieldErrors :=
  {| err_name := Some {| type := "required"; message := "이름을 입력해주세요" |};
     err_email := Some {| type := "required"; message := "이메일을 입력해주세요" |};
     err_experience :=
       Some {| type := "required"; message := "FE 경력 연차를 선택해주세요" |};
     err_github := None |}.

Definition escapeKey (shift : bool) : KeyboardEvent :=
  {| key := "Escape"; shiftKey := shift |}.

(** The focusable elements of the rendered dialog, in document order. *)
Definition dialogFocusable : list el :=
  [ModalTitle; Control Name; Control Email; Control Experience;
   Control Github; CancelButton; SubmitButton].

(** What a handler may do to the form values and to the log: leave the
    log alone, and leave the values alone or put the defaults back. *)
Definition keeps (w w' : world) : Prop :=
  console w' = console w
  /\ (formValues w' = formValues w \/ formValues w' = defaultValues).

(** The experience value is the empty default or one of the offered
    values, and every logged record is acceptable. *)
Definition clean (w : world) : Prop :=
  In (experience (formValues w)) ([] :: experienceOptions)
  /\ Forall acceptable (console w).

(** The end-to-end example carried through: filled in and submitted, in
    the sample browser. *)
Definition submitted_once : world :=
  @step sampleBrowser well_filled (Click SubmitButton).

End Accepted.
Import Accepted.

(** ** The earlier version of the page

    The same component before react-hook-form was introduced: the form is
    made of plain inputs with native constraints, and the handlers and the
    effect are those modelled above, without the [reset()] call. *)

Module Earlier.

Definition plainGroup (f : field) (caption : string) (attrs : attributes) : node :=
  Element (FormGroup f) "div" []
    [label f caption; Element (Control f) "input" attrs []].

Definition modalContent : node :=
  Element ModalContent "div" []
    [Element ModalTitle "h2" [("id", MODAL_TITLE); ("tabindex", "0")]
       [Text "신청 폼"];
     Element ModalDescription "p" [("id", MODAL_DESCRIPTION)]
       [Text "이메일과 FE 경력 연차 등 간단한 정보를 입력해주세요."];
     Element FormGroupWrapper "form" []
       [plainGroup Name "이름 / 닉네임"
          [("type", "text"); ("id", "name"); ("name", "name"); ("required", "")];
        plainGroup Email "이메일"
          [("type", "email"); ("id", "email"); ("name", "email"); ("required", "")];
        plainGroup Experience "FE 경력 연차"
          [("type", "number"); ("id", "experience"); ("name", "experience");
           ("placeholder", "선택해주세요"); ("min", "0"); ("step", "0.5");
           ("required", "")];
        plainGroup Github "Github 링크 (선택)"
          [("type", "url"); ("id", "github"); ("name", "github");
           ("placeholder", "https://github.com/username")];
        formActions]].

(** The [return (...)] of the earlier [ModalFormPage]. *)
Definition render (isModalOpen : bool) : node :=
  Element ModalPage "div" []
    ([Element OpenModalButton "button" [] [Text "🚀 신청 폼 작성하기"]]
     ++ (if isModalOpen
         then [Element ModalOverlay "dialog"
                 [("aria-labelledby", MODAL_TITLE);
                  ("aria-describedby", MODAL_DESCRIPTION)]
                 [modalContent]]
         else [])).

End Earlier.

(** * Properties *)

(** ** Strings *)

Lemma jsstring_eqb_eq (a b : jsstring) : jsstring_eqb a b = true <-> a = b.
Proof.
  revert b; induction a as [|x a IH]; intros [|y b]; simpl; split;
    try congruence; try reflexivity.
  - intros H. apply andb_true_iff in H as [Hx Hr].
    apply N.eqb_eq in Hx. apply IH in Hr. congruence.
  - intros H. injection H as -> ->. rewrite N.eqb_refl. now apply IH.
Qed.

Lemma isEmpty_true (v : jsstring) : isEmpty v = true <-> v = [].
Proof. destruct v; simpl; split; congruence. Qed.

(** ** The matcher decides the language of a pattern *)

Section RegexTheory.

Lemma Matches_Seq_inv r1 r2 s :
  Matches (Seq r1 r2) s ->
  exists s1 s2, s = s1 ++ s2 /\ Matches r1 s1 /\ Matches r2 s2.
Proof. intros H. inversion H; subst. eauto. Qed.

Lemma Matches_Alt_inv r1 r2 s :
  Matches (Alt r1 r2) s -> Matches r1 s \/ Matches r2 s.
Proof. intros H. inversion H; subst; auto. Qed.

Lemma Matches_Class_inv n it s :
  Matches (Class n it) s -> exists c, s = [c] /\ class_mem n it c = true.
Proof. intros H. inversion H; subst. eauto. Qed.

Lemma Matches_Eps_inv s : Matches Eps s -> s = [].
Proof. intros H. now inversion H. Qed.

Lemma Matches_Never_inv s : ~ Matches Never s.
Proof. intros H. inversion H. Qed.

(** A non-empty match of [r*] starts with a non-empty match of [r]. *)
Lemma Matches_Star_cons r c s :
  Matches (Star r) (c :: s) ->
  exists s1 s2, s = s1 ++ s2 /\ Matches r (c :: s1) /\ Matches (Star r) s2.
Proof.
  intros H. remember (Star r) as r' eqn:Er. remember (c :: s) as t eqn:Et.
  revert c s Et. induction H; intros c0 s0 Et; try discriminate.
  injection Er as ->.
  destruct s1 as [|d s1'].
  - simpl in Et. apply IHMatches2; auto.
  - simpl in Et. injection Et as -> <-. eauto.
Qed.

Lemma nullable_Matches r : nullable r = true <-> Matches r [].
Proof.
  induction r as [| |n it|r1 IH1 r2 IH2|r1 IH1 r2 IH2|r IH]; simpl.
  - split; [discriminate | intros H; inversion H].
  - split; [constructor | reflexivity].
  - split; [discriminate | intros H; inversion H].
  - rewrite andb_true_iff, IH1, IH2. split.
    + intros [H1 H2]. change (@nil code_unit) with (@nil code_unit ++ []).
      now constructor.
    + intros H. apply Matches_Seq_inv in H as (s1 & s2 & E & H1 & H2).
      symmetry in E. apply app_eq_nil in E as [-> ->]. auto.
  - rewrite orb_true_iff, IH1, IH2. split.
    + intros [H|H]; [now apply MAltL | now apply MAltR].
    + apply Matches_Alt_inv.
  - split; [constructor | reflexivity].
Qed.

Lemma deriv_Matches r : forall c s, Matches (deriv c r) s <-> Matches r (c :: s).
Proof.
  induction r as [| |n it|r1 IH1 r2 IH2|r1 IH1 r2 IH2|r IH]; intros c s; simpl.
  - split; intros H; inversion H.
  - split; intros H; inversion H.
  - destruct (class_mem n it c) eqn:Ec; split; intros H.
    + apply Matches_Eps_inv in H as ->. now constructor.
    + apply Matches_Class_inv in H as (d & E & Hd). injection E as _ ->.
      constructor.
    + inversion H.
    + apply Matches_Class_inv in H as (d & E & Hd). injection E as -> _.
      congruence.
  - assert (Hseq : Matches (Seq (deriv c r1) r2) s ->
                   Matches (Seq r1 r2) (c :: s)).
    { intros H. apply Matches_Seq_inv in H as (s1 & s2 & -> & H1 & H2).
      apply IH1 in H1. change (c :: s1 ++ s2) with ((c :: s1) ++ s2).
      now constructor. }
    assert (Hinv : Matches (Seq r1 r2) (c :: s) ->
                   Matches (Seq (deriv c r1) r2) s \/
                   (Matches r1 [] /\ Matches r2 (c :: s))).
    { intros H. apply Matches_Seq_inv in H as (s1 & s2 & E & H1 & H2).
      destruct s1 as [|d s1'].
      - simpl in E. subst s2. right. auto.
      - simpl in E. injection E as <- ->. left.
        constructor; [now apply IH1 | assumption]. }
    destruct (nullable r1) eqn:En; split; intros H.
    + apply Matches_Alt_inv in H as [H|H]; [now apply Hseq|].
      apply IH2 in H. apply nullable_Matches in En.
      change (c :: s) with ([] ++ c :: s). now constructor.
    + apply Hinv in H as [H|[_ H]]; [now apply MAltL|].
      apply MAltR. now apply IH2.
    + now apply Hseq.
    + apply Hinv in H as [H|[H _]]; [assumption|].
      apply nullable_Matches in H. congruence.
  - split; intros H.
    + apply Matches_Alt_inv in H as [H|H];
        [apply MAltL; now apply IH1 | apply MAltR; now apply IH2].
    + apply Matches_Alt_inv in H as [H|H];
        [apply MAltL; now apply IH1 | apply MAltR; now apply IH2].
  - split; intros H.
    + apply Matches_Seq_inv in H as (s1 & s2 & -> & H1 & H2).
      apply IH in H1. change (c :: s1 ++ s2) with ((c :: s1) ++ s2).
      now constructor.
    + apply Matches_Star_cons in H as (s1 & s2 & -> & H1 & H2).
      constructor; [now apply IH | assumption].
Qed.

(** The executable matcher agrees with the declarative language. *)
Lemma test_Matches r s : test r s = true <-> Matches r s.
Proof.
  revert r; induction s as [|c s IH]; intros r; simpl.
  - apply nullable_Matches.
  - rewrite IH. apply deriv_Matches.
Qed.

End RegexTheory.

(** ** The languages of the two patterns *)

Section Patterns.

Lemma Matches_Seq_iff r1 r2 s :
  Matches (Seq r1 r2) s <->
  exists s1 s2, s = s1 ++ s2 /\ Matches r1 s1 /\ Matches r2 s2.
Proof.
  split; [apply Matches_Seq_inv|].
  intros (s1 & s2 & -> & H1 & H2). now constructor.
Qed.

Lemma Matches_Opt_iff r s : Matches (Opt r) s <-> Matches r s \/ s = [].
Proof.
  unfold Opt. split.
  - intros H. apply Matches_Alt_inv in H as [H|H]; auto.
    right. now apply Matches_Eps_inv.
  - intros [H| ->]; [now apply MAltL | apply MAltR; constructor].
Qed.

Lemma Matches_Star_Class n it s :
  Matches (Star (Class n it)) s <-> Forall (fun c => class_mem n it c = true) s.
Proof.
  split.
  - intros H. remember (Star (Class n it)) as r eqn:Er.
    induction H; try discriminate; [constructor|].
    injection Er as ->.
    apply Matches_Class_inv in H as (c & -> & Hc).
    simpl. constructor; auto.
  - induction 1 as [|c s Hc _ IH]; [constructor|].
    change (c :: s) with ([c] ++ s). constructor; [now constructor | exact IH].
Qed.

Lemma Matches_Plus_Class n it s :
  Matches (Plus (Class n it)) s <->
  s <> [] /\ Forall (fun c => class_mem n it c = true) s.
Proof.
  unfold Plus. rewrite Matches_Seq_iff. split.
  - intros (s1 & s2 & -> & H1 & H2).
    apply Matches_Class_inv in H1 as (c & -> & Hc).
    apply Matches_Star_Class in H2. split; [discriminate|].
    simpl. now constructor.
  - intros [Hne Hall]. destruct s as [|c s]; [congruence|].
    inversion Hall; subst. exists [c], s. split; [reflexivity|].
    split; [now constructor | now apply Matches_Star_Class].
Qed.

Lemma Matches_Chr a s : Matches (Chr a) s <-> s = [ch a].
Proof.
  unfold Chr. split.
  - intros H. apply Matches_Class_inv in H as (c & -> & Hc).
    unfold class_mem in Hc. simpl in Hc. rewrite orb_false_r in Hc.
    apply N.eqb_eq in Hc. now subst.
  - intros ->. constructor. unfold class_mem. simpl.
    now rewrite N.eqb_refl.
Qed.

Lemma Matches_Str l s : Matches (Str l) s <-> s = map N_of_ascii l.
Proof.
  revert s; induction l as [|a l IH]; intros s; simpl.
  - split; [apply Matches_Eps_inv | intros ->; constructor].
  - rewrite Matches_Seq_iff. split.
    + intros (s1 & s2 & -> & H1 & H2).
      apply Matches_Chr in H1 as ->. apply IH in H2 as ->. reflexivity.
    + intros ->. exists [ch a], (map N_of_ascii l).
      split; [reflexivity|]. split; [now apply Matches_Chr | now apply IH].
Qed.

Lemma Matches_Lit str s : Matches (Lit str) s <-> s = lit str.
Proof. apply Matches_Str. Qed.

Lemma address_char_mem c :
  class_mem true [WhiteSpace; One (ch "@")] c = true <-> address_char c.
Proof.
  unfold class_mem, address_char. cbn [existsb citem_mem].
  rewrite orb_false_r.
  destruct (is_js_whitespace c), (N.eqb_spec c (ch "@")) as [E|E];
    cbn [orb xorb negb]; split; try discriminate; try (intros [? ?]; congruence).
  intros _. split; [reflexivity | exact E].
Qed.

Lemma Forall_address_char s :
  Forall (fun c => class_mem true [WhiteSpace; One (ch "@")] c = true) s
  <-> Forall address_char s.
Proof.
  split; intros H; eapply Forall_impl; try exact H;
    intros c Hc; now apply address_char_mem.
Qed.

(** The pattern of the source accepts exactly the [local@domain.tld]
    strings. *)
Lemma emailPattern_language v :
  test emailPattern v = true <-> local_at_domain_tld v.
Proof.
  rewrite test_Matches. unfold emailPattern, local_at_domain_tld, not_space_or_at.
  split.
  - intros H.
    apply Matches_Seq_inv in H as (l & s1 & -> & Hl & H).
    apply Matches_Seq_inv in H as (a & s2 & -> & Ha & H).
    apply Matches_Seq_inv in H as (d & s3 & -> & Hd & H).
    apply Matches_Seq_inv in H as (p & t & -> & Hp & Ht).
    apply Matches_Chr in Ha as ->. apply Matches_Chr in Hp as ->.
    apply Matches_Plus_Class in Hl as [Hl1 Hl2].
    apply Matches_Plus_Class in Hd as [Hd1 Hd2].
    apply Matches_Plus_Class in Ht as [Ht1 Ht2].
    exists l, d, t. rewrite <- !Forall_address_char. simpl. auto 10.
  - intros (l & d & t & -> & Hl & Hd & Ht & Al & Ad & At).
    rewrite <- Forall_address_char in Al, Ad, At.
    constructor; [now apply Matches_Plus_Class|].
    change (ch "@" :: d ++ ch "." :: t) with ([ch "@"] ++ d ++ [ch "."] ++ t).
    constructor; [now apply Matches_Chr|].
    constructor; [now apply Matches_Plus_Class|].
    constructor; [now apply Matches_Chr | now apply Matches_Plus_Class].
Qed.

Lemma handle_code_mem c :
  class_mem false [Range (ch "a") (ch "z"); Range (ch "A") (ch "Z");
                   Range (ch "0") (ch "9"); One (ch "-")] c = true
  <-> handle_code c.
Proof.
  unfold class_mem, handle_code. cbn [existsb citem_mem xorb].
  rewrite orb_false_r, !orb_true_iff, !andb_true_iff, !N.leb_le, N.eqb_eq.
  tauto.
Qed.

Lemma Dot_mem c :
  class_mem true [One 10%N; One 13%N; One 8232%N; One 8233%N] c = true
  <-> ~ line_terminator c.
Proof.
  unfold class_mem, line_terminator. cbn [existsb citem_mem].
  rewrite orb_false_r.
  destruct (N.eqb_spec c 10), (N.eqb_spec c 13), (N.eqb_spec c 8232),
    (N.eqb_spec c 8233); cbn [orb xorb]; split; try discriminate; try tauto.
Qed.

(** The language of the GitHub pattern: after the handle anything may
    follow, as long as it stays on one line. *)
Lemma githubPattern_language v :
  test githubPattern v = true <->
  exists (www : bool) handle rest,
    v = lit "https://" ++ (if www then lit "www." else [])
        ++ lit "github.com/" ++ handle ++ rest
    /\ handle <> [] /\ Forall handle_code handle
    /\ Forall (fun c => ~ line_terminator c) rest.
Proof.
  rewrite test_Matches. unfold githubPattern, handle_char, Dot. split.
  - intros H.
    apply Matches_Seq_inv in H as (p & s1 & -> & Hp & H).
    apply Matches_Seq_inv in H as (w & s2 & -> & Hw & H).
    apply Matches_Seq_inv in H as (g & s3 & -> & Hg & H).
    apply Matches_Seq_inv in H as (h & s4 & -> & Hh & H).
    apply Matches_Seq_inv in H as (sl & r & -> & Hsl & Hr).
    apply Matches_Lit in Hp as ->. apply Matches_Lit in Hg as ->.
    apply Matches_Plus_Class in Hh as [Hh1 Hh2].
    apply Matches_Star_Class in Hr.
    assert (Hrest : Forall (fun c => ~ line_terminator c) (sl ++ r)).
    { apply Forall_app. split.
      - apply Matches_Opt_iff in Hsl as [Hsl| ->]; [|constructor].
        apply Matches_Chr in Hsl as ->. constructor; [|constructor].
        apply Dot_mem. reflexivity.
      - eapply Forall_impl; [|exact Hr]. intros c Hc. now apply Dot_mem. }
    assert (Hhandle : Forall handle_code h).
    { eapply Forall_impl; [|exact Hh2]. intros c Hc. now apply handle_code_mem. }
    apply Matches_Opt_iff in Hw as [Hw| ->].
    + apply Matches_Lit in Hw as ->. exists true, h, (sl ++ r). auto.
    + exists false, h, (sl ++ r). auto.
  - intros (www & h & rest & -> & Hh & Ah & Ar).
    constructor; [now apply Matches_Lit|].
    constructor.
    { apply Matches_Opt_iff. destruct www; [left; now apply Matches_Lit | now right]. }
    constructor; [now apply Matches_Lit|].
    constructor.
    { apply Matches_Plus_Class. split; [exact Hh|].
      eapply Forall_impl; [|exact Ah]. intros c Hc. now apply handle_code_mem. }
    change rest with ([] ++ rest). constructor.
    { apply Matches_Opt_iff. now right. }
    apply Matches_Star_Class.
    eapply Forall_impl; [|exact Ar]. intros c Hc. now apply Dot_mem.
Qed.





End Patterns.

(** ** Handlers leave the committed part alone *)

Section Handlers.

Context {browser : Browser}.

Lemma shape_set_queued q w : shape (set_queued q w) = shape w.
Proof. reflexivity. Qed.

Lemma shape_set_form v e b w : shape (set_form v e b w) = shape w.
Proof. reflexivity. Qed.

Lemma shape_set_console c w : shape (set_console c w) = shape w.
Proof. reflexivity. Qed.

Lemma shape_focus e w : shape (focus e w) = shape w.
Proof. reflexivity. Qed.

Lemma shape_showModal w : shape (showModal w) = shape w.
Proof.
  unfold showModal. destruct (dialogOpen w) as [[|]|] eqn:E; try reflexivity.
  destruct (dialogFocusDelegate (documentTree w)); unfold shape; cbn;
    now rewrite E.
Qed.

Lemma shape_close w : shape (close w) = shape w.
Proof. unfold shape, close; cbn. now destruct (dialogOpen w). Qed.

Lemma shape_openModal w : shape (openModal w) = shape w.
Proof.
  unfold openModal, reset, setIsModalOpen. rewrite shape_set_form.
  destruct (modalRef (set_queued (Some true) w));
    [rewrite shape_showModal|]; apply shape_set_queued.
Qed.

Lemma shape_closeModal w : shape (closeModal w) = shape w.
Proof.
  unfold closeModal, setIsModalOpen.
  destruct (modalRef (set_queued (Some false) w));
    [rewrite shape_close|]; apply shape_set_queued.
Qed.

Lemma shape_focusError w : shape (focusError w) = shape w.
Proof.
  unfold focusError.
  now destruct (filter _ fields).
Qed.

Lemma shape_handleSubmit w : shape (handleSubmit w) = shape w.
Proof.
  unfold handleSubmit, onSubmit.
  destruct (errors_empty _).
  - now rewrite shape_closeModal, shape_set_console, shape_set_form.
  - now rewrite shape_focusError, shape_set_form.
Qed.

Lemma shape_onClick k t w : shape (fst (onClick k t w)) = shape w.
Proof.
  destruct k; cbn; try reflexivity.
  - apply shape_openModal.
  - unfold handleOverlayClick. destruct (strict_eq _ _); [apply shape_closeModal | reflexivity].
  - apply shape_closeModal.
Qed.

Lemma shape_propagateClick path t : forall w, shape (propagateClick path t w) = shape w.
Proof.
  induction path as [|k rest IH]; intros w; cbn; [reflexivity|].
  pose proof (shape_onClick k t w) as Hk.
  destruct (onClick k t w) as [w' stop]; cbn in Hk.
  destruct stop; [exact Hk | now rewrite IH].
Qed.

Lemma shape_reportValidity w : shape (reportValidity w) = shape w.
Proof.
  unfold reportValidity. destruct focusesInvalid; [|reflexivity].
  now destruct (controlOk _ _).
Qed.

Lemma shape_requestSubmit w : shape (requestSubmit w) = shape w.
Proof.
  unfold requestSubmit. destruct (checkValidity _);
    [apply shape_handleSubmit | apply shape_reportValidity].
Qed.

Lemma shape_click t w : shape (click t w) = shape w.
Proof.
  unfold click. destruct (path_to t (documentTree w)); [|reflexivity].
  destruct (el_eqb t SubmitButton);
    [rewrite shape_requestSubmit|]; apply shape_propagateClick.
Qed.

Lemma shape_fold {A} (f : world -> A -> world) (l : list A) :
  (forall w a, shape (f w a) = shape w) ->
  forall w, shape (fold_left f l w) = shape w.
Proof.
  intros Hf. induction l as [|a l IH]; intros w; cbn; [reflexivity|].
  now rewrite IH, Hf.
Qed.

Lemma shape_runTabListener e w : shape (runTabListener e w) = shape w.
Proof. unfold runTabListener. now destruct (handleTabKey _ _ _). Qed.

Lemma shape_keydown e w : shape (keydown e w) = shape w.
Proof.
  unfold keydown. rewrite !shape_fold; [reflexivity| |].
  - intros w' k. destruct k; cbn; try reflexivity.
    unfold handleKeyDown. destruct (String.eqb _ _); [apply shape_closeModal | reflexivity].
  - intros w' _. apply shape_runTabListener.
Qed.

Lemma shape_handle ev w : shape (handle ev w) = shape w.
Proof.
  destruct ev; cbn.
  - apply shape_click.
  - apply shape_keydown.
  - unfold change. now destruct (_ && _).
  - unfold focusMoved. now destruct (_ || _).
  - reflexivity.
Qed.

Lemma settled_but_queue_shape w w' :
  shape w' = shape w -> settled_but_queue w -> settled_but_queue w'.
Proof.
  unfold shape, settled_but_queue, closed_shape, open_shape.
  intros E. injection E as E1 E2 E3 E4 E5 E6 E7 E8 E9 E10.
  rewrite E1, E2, E3, E4, E5, E6, E7, E9, E10.
  tauto.
Qed.

End Handlers.

(** ** What a commit does *)

Section Commit.

#[local] Arguments refocus : simpl never.

Lemma commit_idle w : queued w = None -> commit w = w.
Proof. unfold commit. now intros ->. Qed.

Lemma commit_same w :
  queued w = Some (isModalOpen w) -> commit w = set_queued None w.
Proof. unfold commit. intros ->. now rewrite eqb_reflx. Qed.

Lemma commit_opening w :
  settled_but_queue w -> isModalOpen w = false -> queued w = Some true ->
  commit w = opened w.
Proof.
  intros (Hm & Hb & [Hc|Ho]) Hopen Hq.
  - destruct Hc as (_ & Ht & Hr & Hc & Hd & Hcl & Hl).
    unfold commit. rewrite Hq, Hopen. cbn [Bool.eqb].
    unfold reconcile. generalize (refocus (documentTree (set_queued None w))
      (documentTree (set_isModalOpen true (set_queued None w)))
      (activeElement (set_queued None w))). intros a.
    destruct w; cbn in *; subst.
    unfold opened, effect, runCleanup; cbn. reflexivity.
  - destruct Ho as (Ho & _). congruence.
Qed.

Lemma commit_closing w :
  settled_but_queue w -> isModalOpen w = true -> queued w = Some false ->
  commit w = closed_again w.
Proof.
  intros (Hm & Hb & [Hc|Ho]) Hopen Hq.
  - destruct Hc as (Hc & _). congruence.
  - destruct Ho as (_ & Ht & Hr & Hc & Hd & h & Hcl & Hl).
    unfold commit. rewrite Hq, Hopen. cbn [Bool.eqb].
    unfold reconcile. generalize (refocus (documentTree (set_queued None w))
      (documentTree (set_isModalOpen false (set_queued None w)))
      (activeElement (set_queued None w))). intros a.
    destruct w; cbn in *; subst.
    unfold closed_again, effect, runCleanup, removeEventListener; cbn.
    rewrite Nat.eqb_refl. reflexivity.
Qed.

(** A commit brings the mounted component back to a settled state. *)
Lemma commit_settled w : settled_but_queue w -> settled (commit w).
Proof.
  intros Hw. destruct (queued w) as [b|] eqn:Hq.
  - destruct (Bool.eqb b (isModalOpen w)) eqn:Eb.
    + apply eqb_prop in Eb. subst b. rewrite commit_same by exact Hq.
      split; [reflexivity|].
      eapply settled_but_queue_shape; [|exact Hw]. reflexivity.
    + destruct Hw as (Hm & Hb & Hs).
      destruct b, (isModalOpen w) eqn:Ho; try discriminate.
      * rewrite commit_opening; [|repeat split; auto|auto|auto].
        split; [reflexivity|]. split; [exact Hm|]. split; [reflexivity|].
        right. repeat split. now exists (closures w).
      * rewrite commit_closing; [|repeat split; auto|auto|auto].
        split; [reflexivity|]. split; [exact Hm|]. split; [reflexivity|].
        left. repeat split.
  - rewrite commit_idle by exact Hq. now split.
Qed.

End Commit.

(** ** Reachable states *)

Section Reachability.

Context {browser : Browser}.

Lemma mount_initial strict prior :
  mount strict (initial prior) =
  closed_again (set_mounted true (initial prior)).
Proof. destruct strict; reflexivity. Qed.

Lemma mount_settled strict prior : settled (mount strict (initial prior)).
Proof.
  rewrite mount_initial. split; [reflexivity|].
  split; [reflexivity|]. split; [reflexivity|]. left. repeat split.
Qed.

Lemma unmount_torn_down w : settled w -> torn_down (unmount w).
Proof.
  intros (_ & _ & _ & [Hc|Ho]).
  - destruct Hc as (_ & _ & _ & _ & _ & Hcl & Hl).
    unfold unmount, runCleanup. rewrite Hcl. cbn. repeat split; assumption.
  - destruct Ho as (_ & _ & _ & _ & _ & h & Hcl & Hl).
    unfold unmount, runCleanup. rewrite Hcl. cbn. repeat split.
    change (remove_first h (keydownListeners w) = []).
    rewrite Hl. cbn. now rewrite Nat.eqb_refl.
Qed.

Lemma step_settled w ev :
  settled w -> settled (step w ev) \/ torn_down (step w ev).
Proof.
  intros Hw. pose proof Hw as (Hq & Hm & Hrest).
  unfold step. rewrite Hm.
  assert (Hc : settled (commit (handle ev w))).
  { apply commit_settled.
    eapply settled_but_queue_shape; [apply shape_handle | now split]. }
  destruct ev; auto. right. now apply unmount_torn_down.
Qed.

Lemma step_torn_down w ev : torn_down w -> step w ev = w.
Proof. intros (Hm & _). unfold step. now rewrite Hm. Qed.

Lemma run_settled evs : forall w,
  settled w -> settled (run w evs) \/ torn_down (run w evs).
Proof.
  induction evs as [|ev evs IH]; intros w Hw; cbn; [now left|].
  destruct (step_settled w ev Hw) as [H|H]; [now apply IH|].
  right. clear IH Hw. revert H. generalize (step w ev) as w'.
  induction evs as [|ev' evs IH]; intros w' H; cbn; [exact H|].
  rewrite step_torn_down by exact H. now apply IH.
Qed.

(** Every reachable state is settled or torn down. *)
Lemma reachable_inv w : reachable w -> settled w \/ torn_down w.
Proof.
  intros (strict & prior & evs & ->). apply run_settled, mount_settled.
Qed.

Lemma reachable_mounted w : reachable w -> mounted w = true -> settled w.
Proof.
  intros Hr Hm. destruct (reachable_inv w Hr) as [H|(H & _)]; [exact H|].
  congruence.
Qed.

Lemma reachable_step w ev : reachable w -> reachable (step w ev).
Proof.
  intros (strict & prior & evs & ->). exists strict, prior, (evs ++ [ev]).
  unfold run. now rewrite fold_left_app.
Qed.

Lemma reachable_mount strict prior : reachable (mount strict (initial prior)).
Proof. now exists strict, prior, []. Qed.

End Reachability.

(** ** The focus trap *)

Section FocusTrap.

Lemma el_eqb_eq a b : el_eqb a b = true <-> a = b.
Proof. unfold el_eqb. destruct (el_eq_dec a b); split; congruence. Qed.

Lemma el_eqb_refl a : el_eqb a a = true.
Proof. now apply el_eqb_eq. Qed.

Lemma index_first arr x : index arr 0 = JRef x <-> first_of arr x.
Proof.
  unfold index, first_of. cbn. destruct arr as [|y arr]; cbn; split; congruence.
Qed.

Lemma index_last arr x :
  index arr (Z.of_nat (List.length arr) - 1) = JRef x <-> last_of arr x.
Proof.
  unfold last_of. destruct arr as [|y arr'] eqn:E.
  - cbn. split; [discriminate|]. intros (l' & H). now destruct l'.
  - rewrite <- E. assert (Hne : arr <> []) by (subst; discriminate).
    destruct (exists_last Hne) as (l' & z & Hz). clear E.
    unfold index.
    replace (Z.of_nat (List.length arr) - 1)%Z with (Z.of_nat (List.length l')).
    2:{ rewrite Hz, length_app. cbn. lia. }
    destruct (Z.ltb_spec (Z.of_nat (List.length l')) 0); [lia|].
    rewrite Nat2Z.id, Hz, nth_error_app2, Nat.sub_diag by lia. cbn.
    split.
    + intros H'. injection H' as ->. now exists l'.
    + intros (l'' & H'). apply app_inj_tail in H' as [_ ->]. reflexivity.
Qed.

Lemma index_empty i : index [] i = JUndefined.
Proof. unfold index. destruct (i <? 0)%Z; [reflexivity|]. now destruct (Z.to_nat i). Qed.

Lemma index_cases arr i : index arr i = JUndefined \/ exists x, index arr i = JRef x.
Proof.
  unfold index. destruct (i <? 0)%Z; [now left|].
  destruct (nth_error arr (Z.to_nat i)); eauto.
Qed.

(** An array element is an element or [undefined], the active element is
    an element or [null]: they are equal only when both are the same
    element. *)
Lemma strict_eq_index a arr i :
  strict_eq (current a) (index arr i) = true <->
  exists x, a = Some x /\ index arr i = JRef x.
Proof.
  destruct (index_cases arr i) as [-> | (y & ->)]; destruct a as [x|];
    cbn; split; try discriminate; try (intros (z & Hz & Hr); discriminate).
  - intros H. apply el_eqb_eq in H as ->. eauto.
  - intros (z & Hz & Hr). injection Hz as <-. injection Hr as <-.
    apply el_eqb_refl.
Qed.

(** [handleTabKey] never calls a method on [undefined]. *)
Lemma handleTabKey_never_throws content e active :
  handleTabKey content e active <> TypeError.
Proof.
  unfold handleTabKey.
  destruct (String.eqb (key e) "Tab"); [|discriminate].
  destruct content as [root|]; [|discriminate].
  set (arr := querySelectorAll focusableSelector root).
  assert (Hends : forall x, index arr 0 = JRef x ->
            exists y, index arr (Z.of_nat (List.length arr) - 1) = JRef y).
  { intros x Hx. apply index_first in Hx. destruct arr as [|a arr']; [discriminate|].
    destruct (@exists_last _ (a :: arr')) as (l' & y & Hy); [discriminate|].
    exists y. apply index_last. now exists l'. }
  assert (Hends' : forall y, index arr (Z.of_nat (List.length arr) - 1) = JRef y ->
            exists x, index arr 0 = JRef x).
  { intros y Hy. apply index_last in Hy as (l' & Hy).
    destruct arr as [|a arr']; [now destruct l'|]. now exists a. }
  destruct (shiftKey e); cbn [andb negb].
  - destruct (strict_eq _ _) eqn:E; [|discriminate].
    apply strict_eq_index in E as (x & _ & Hx).
    destruct (Hends x Hx) as (y & ->). discriminate.
  - destruct (strict_eq _ _) eqn:E; [|discriminate].
    apply strict_eq_index in E as (y & _ & Hy).
    destruct (Hends' y Hy) as (x & ->). discriminate.
Qed.

(** C2. On a Tab keydown, with the focusable set queried from the dialog
    content at that moment: Shift+Tab on the first element prevents the
    default action and focuses the last element; Tab on the last element
    prevents the default action and focuses the first; in every other
    case the handler prevents nothing and leaves the focus where it is. *)
Theorem C2_tab_wraps_at_the_ends (root : node) (e : KeyboardEvent)
    (active : option el) :
  key e = "Tab" ->
  let focusable := querySelectorAll focusableSelector root in
  let outcome := handleTabKey (Some root) e active in
  (forall f l, first_of focusable f -> last_of focusable l ->
     (shiftKey e = true -> active = Some f ->
      outcome = Normal {| defaultPrevented := true; activeAfter := Some l |})
     /\
     (shiftKey e = false -> active = Some l ->
      outcome = Normal {| defaultPrevented := true; activeAfter := Some f |}))
  /\
  ((shiftKey e = true -> forall f, first_of focusable f -> active <> Some f) ->
   (shiftKey e = false -> forall l, last_of focusable l -> active <> Some l) ->
   outcome = Normal {| defaultPrevented := false; activeAfter := active |}).
Proof.
  intros Hkey focusable outcome. subst outcome. unfold handleTabKey.
  rewrite Hkey. cbn [String.eqb Ascii.eqb Bool.eqb]. fold focusable.
  split.
  - intros f l Hf Hl. apply index_first in Hf. apply index_last in Hl.
    split; intros Hs Ha; rewrite Hs; cbn [andb negb].
    + replace (strict_eq (current active) (index focusable 0)) with true.
      2:{ symmetry. apply strict_eq_index. eauto. }
      now rewrite Hl.
    + replace (strict_eq (current active)
                 (index focusable (Z.of_nat (List.length focusable) - 1)))
        with true.
      2:{ symmetry. apply strict_eq_index. eauto. }
      now rewrite Hf.
  - intros Hfirst Hlast. destruct (shiftKey e); cbn [andb negb].
    + destruct (strict_eq _ _) eqn:E; [|reflexivity].
      apply strict_eq_index in E as (x & Ha & Hx). apply index_first in Hx.
      now destruct (Hfirst eq_refl x Hx).
    + destruct (strict_eq _ _) eqn:E; [|reflexivity].
      apply strict_eq_index in E as (x & Ha & Hx). apply index_last in Hx.
      now destruct (Hlast eq_refl x Hx).
Qed.

(** C6. When the dialog content has no focusable element, the Tab handler
    returns normally, prevents nothing and moves no focus. *)
Theorem C6_no_focusable_element_is_a_noop (root : node) (e : KeyboardEvent)
    (active : option el) :
  querySelectorAll focusableSelector root = [] ->
  handleTabKey (Some root) e active
  = Normal {| defaultPrevented := false; activeAfter := active |}.
Proof.
  intros Hnone. unfold handleTabKey. rewrite Hnone.
  destruct (String.eqb (key e) "Tab"); [|reflexivity].
  rewrite !index_empty.
  destruct active; cbn; now rewrite ?andb_false_r.
Qed.

(** The focusable set of the rendered dialog does not depend on which
    error messages are shown. *)
Lemma focusable_of_modalContent errors :
  querySelectorAll focusableSelector (modalContent errors)
  = [ModalTitle; Control Name; Control Email; Control Experience;
     Control Github; CancelButton; SubmitButton].
Proof. destruct errors as [[?|] [?|] [?|] [?|]]; reflexivity. Qed.

End FocusTrap.

(** ** Events and the handlers they reach *)

Section Events.

Context {browser : Browser}.

Lemma path_to_open_button b errors :
  path_to OpenModalButton (render b errors) = Some [OpenModalButton; ModalPage].
Proof. destruct b; reflexivity. Qed.

Lemma path_to_cancel errors :
  path_to CancelButton (render true errors)
  = Some [CancelButton; FormActions; FormGroupWrapper; ModalContent;
          ModalOverlay; ModalPage].
Proof. destruct errors as [[?|] [?|] [?|] [?|]]; reflexivity. Qed.

Lemma path_to_submit errors :
  path_to SubmitButton (render true errors)
  = Some [SubmitButton; FormActions; FormGroupWrapper; ModalContent;
          ModalOverlay; ModalPage].
Proof. destruct errors as [[?|] [?|] [?|] [?|]]; reflexivity. Qed.

Lemma path_to_overlay errors :
  path_to ModalOverlay (render true errors) = Some [ModalOverlay; ModalPage].
Proof. reflexivity. Qed.

(** A click on the trigger runs [openModal]. *)
Lemma click_open w : click OpenModalButton w = openModal w.
Proof.
  unfold click, documentTree. now rewrite path_to_open_button.
Qed.

(** A click on Cancel runs [closeModal]; it stops at the content and does
    not reach the overlay's handler. *)
Lemma click_cancel w :
  isModalOpen w = true -> click CancelButton w = closeModal w.
Proof.
  intros Ho. unfold click, documentTree. now rewrite Ho, path_to_cancel.
Qed.

(** A click on the submit button asks the browser to submit the form. *)
Lemma click_submit w :
  isModalOpen w = true -> click SubmitButton w = requestSubmit w.
Proof.
  intros Ho. unfold click, documentTree. now rewrite Ho, path_to_submit.
Qed.

(** A click on the backdrop, that is on the dialog element itself, closes
    the modal. *)
Lemma click_backdrop w :
  isModalOpen w = true -> modalRef w = Some ModalOverlay ->
  click ModalOverlay w = closeModal w.
Proof.
  intros Ho Hr. unfold click, documentTree. rewrite Ho, path_to_overlay.
  cbn. unfold handleOverlayClick. now rewrite Hr.
Qed.

Lemma openModal_closed w :
  modalRef w = None ->
  openModal w = reset (setIsModalOpen true w).
Proof. intros Hr. unfold openModal. cbn. now rewrite Hr. Qed.

Lemma openModal_open w :
  modalRef w = Some ModalOverlay ->
  openModal w = reset (showModal (setIsModalOpen true w)).
Proof. intros Hr. unfold openModal. cbn. now rewrite Hr. Qed.

(** From a closed state a click on the trigger opens the modal; the
    dialog is not in the document while [openModal] runs, so [showModal]
    is not called and the new dialog has no [open] attribute. *)
Lemma step_open_from_closed w :
  settled w -> isModalOpen w = false ->
  step w (Click OpenModalButton) = opened (reset w).
Proof.
  intros (Hq & Hm & Hb & Hs) Ho.
  destruct Hs as [Hc|Hop]; [|destruct Hop; congruence].
  pose proof Hc as (_ & _ & Hr & _).
  unfold step. rewrite Hm. cbn [handle]. rewrite click_open, openModal_closed by exact Hr.
  rewrite commit_opening.
  - reflexivity.
  - split; [exact Hm|]. split; [exact Hb|]. now left.
  - exact Ho.
  - reflexivity.
Qed.

(** [showModal] touches the dialog, the focus and the call count only. *)
Lemma showModal_keeps w :
  queued (showModal w) = queued w
  /\ isModalOpen (showModal w) = isModalOpen w
  /\ formValues (showModal w) = formValues w
  /\ console (showModal w) = console w
  /\ showModalCalls (showModal w) = S (showModalCalls w).
Proof.
  unfold showModal. destruct (dialogOpen w) as [[|]|]; cbn; auto.
  destruct (dialogFocusDelegate (documentTree w)); cbn; auto.
Qed.

Lemma mounted_showModal w : mounted (showModal w) = mounted w.
Proof.
  pose proof (shape_showModal w) as E. unfold shape in E. congruence.
Qed.

(** A click on the trigger while the modal is already open leaves it
    open; this time the dialog exists and [showModal] is called. *)
Lemma step_open_from_open w :
  settled w -> isModalOpen w = true ->
  step w (Click OpenModalButton)
  = set_queued None (reset (showModal (setIsModalOpen true w))).
Proof.
  intros (Hq & Hm & Hb & Hs) Ho.
  destruct Hs as [Hc|Hop]; [destruct Hc; congruence|].
  pose proof Hop as (_ & _ & Hr & _).
  unfold step. rewrite Hm. cbn [handle]. rewrite click_open, openModal_open by exact Hr.
  rewrite commit_same; [reflexivity|]. cbn [queued isModalOpen reset set_form].
  destruct (showModal_keeps (setIsModalOpen true w)) as (-> & -> & _).
  cbn. now rewrite Ho.
Qed.

(** Closing from an open state. *)
Lemma commit_closeModal w :
  settled w -> isModalOpen w = true ->
  commit (closeModal w) = closed_again (close w).
Proof.
  intros (Hq & Hm & Hb & Hs) Ho.
  destruct Hs as [Hc|Hop]; [destruct Hc; congruence|].
  pose proof Hop as (_ & _ & Hr & _).
  unfold closeModal. cbn. rewrite Hr.
  rewrite commit_closing.
  - reflexivity.
  - eapply settled_but_queue_shape with (w := w).
    + now rewrite shape_close.
    + split; [exact Hm|]. split; [exact Hb|]. now right.
  - exact Ho.
  - reflexivity.
Qed.

Lemma step_cancel w :
  settled w -> isModalOpen w = true ->
  step w (Click CancelButton) = closed_again (close w).
Proof.
  intros Hw Ho. pose proof Hw as (_ & Hm & _).
  unfold step. rewrite Hm. cbn [handle]. rewrite click_cancel by exact Ho.
  now apply commit_closeModal.
Qed.

End Events.

(** ** The modal state machine *)

Section StateMachine.

Context {browser : Browser}.

Lemma isModalOpen_unmount w : isModalOpen (unmount w) = isModalOpen w.
Proof. unfold unmount, runCleanup. now destruct (cleanup w). Qed.

Lemma isModalOpen_handle ev w : isModalOpen (handle ev w) = isModalOpen w.
Proof.
  pose proof (shape_handle ev w) as E. unfold shape in E. congruence.
Qed.

(** A commit changes [isModalOpen] only by opening or by closing. *)
Lemma commit_transition w :
  settled_but_queue w -> isModalOpen (commit w) <> isModalOpen w ->
  (isModalOpen w = false /\ commit w = opened w)
  \/ (isModalOpen w = true /\ commit w = closed_again w).
Proof.
  intros Hw Hne. destruct (queued w) as [b|] eqn:Hq.
  - destruct (Bool.eqb b (isModalOpen w)) eqn:Eb.
    + apply eqb_prop in Eb. subst b.
      rewrite commit_same in Hne by exact Hq. now destruct Hne.
    + destruct b, (isModalOpen w) eqn:Ho; try discriminate.
      * left. split; [reflexivity|]. now apply commit_opening.
      * right. split; [reflexivity|]. now apply commit_closing.
  - rewrite commit_idle in Hne by exact Hq. now destruct Hne.
Qed.

(** Whatever the event, a step changes [isModalOpen] only through such a
    commit. *)
Lemma step_transition w ev :
  reachable w -> isModalOpen (step w ev) <> isModalOpen w ->
  mounted w = true
  /\ ((isModalOpen w = false /\ step w ev = opened (handle ev w))
      \/ (isModalOpen w = true /\ step w ev = closed_again (handle ev w))).
Proof.
  intros Hr Hne. unfold step in *.
  destruct (mounted w) eqn:Hm; [|now destruct Hne].
  split; [reflexivity|].
  pose proof (reachable_mounted w Hr Hm) as (Hq & Hs).
  assert (Hs' : settled_but_queue (handle ev w)).
  { eapply settled_but_queue_shape; [apply shape_handle | exact Hs]. }
  assert (Hc : isModalOpen (commit (handle ev w)) <> isModalOpen (handle ev w) ->
               (isModalOpen w = false /\ commit (handle ev w) = opened (handle ev w))
               \/ (isModalOpen w = true
                   /\ commit (handle ev w) = closed_again (handle ev w))).
  { intros H. rewrite <- (isModalOpen_handle ev w). now apply commit_transition. }
  destruct ev; try (apply Hc; now rewrite isModalOpen_handle).
  rewrite isModalOpen_unmount in Hne. now destruct Hne.
Qed.

Lemma title_tabindex errors :
  attribute_of ModalTitle "tabindex" (render true errors) = Some "0".
Proof. reflexivity. Qed.

(** One round of opening and cancelling, from a closed state. *)
Lemma open_then_cancel w :
  reachable w -> mounted w = true -> isModalOpen w = false ->
  let w' := step (step w (Click OpenModalButton)) (Click CancelButton) in
  reachable w' /\ mounted w' = true /\ isModalOpen w' = false
  /\ activeElement w' = Some OpenModalButton.
Proof.
  intros Hr Hm Ho w'. subst w'.
  pose proof (reachable_mounted w Hr Hm) as Hs.
  split; [now apply reachable_step, reachable_step|].
  assert (Hr1 : reachable (step w (Click OpenModalButton)))
    by now apply reachable_step.
  rewrite step_open_from_closed in * by assumption.
  assert (Hs1 : settled (opened (reset w))).
  { apply reachable_mounted; [exact Hr1 | exact Hm]. }
  rewrite step_cancel by (exact Hs1 || reflexivity).
  repeat split. exact Hm.
Qed.

(** C4. Whenever a step takes [isModalOpen] from false to true, focus
    ends on the dialog title, which carries [tabindex="0"]; whenever a
    step takes it from true to false, focus ends on the trigger button.
    Both transitions exist (the trigger opens, Cancel closes), and after
    any number of open/close rounds the trigger button has the focus. *)
Theorem C4_focus_follows_the_modal (w : world) :
  reachable w ->
  (forall ev, isModalOpen w = false -> isModalOpen (step w ev) = true ->
     activeElement (step w ev) = Some ModalTitle
     /\ attribute_of ModalTitle "tabindex" (documentTree (step w ev)) = Some "0")
  /\
  (forall ev, isModalOpen w = true -> isModalOpen (step w ev) = false ->
     activeElement (step w ev) = Some OpenModalButton)
  /\
  (mounted w = true -> isModalOpen w = false ->
     isModalOpen (step w (Click OpenModalButton)) = true)
  /\
  (mounted w = true -> isModalOpen w = true ->
     isModalOpen (step w (Click CancelButton)) = false)
  /\
  (mounted w = true -> isModalOpen w = false ->
     forall n, activeElement (run w (open_close_cycles (S n)))
               = Some OpenModalButton).
Proof.
  intros Hr. repeat apply conj.
  - intros ev Ho Ho'.
    destruct (step_transition w ev Hr) as (_ & [(_ & E)|(E & _)]);
      [congruence | | congruence].
    rewrite E. split; [reflexivity | apply title_tabindex].
  - intros ev Ho Ho'.
    destruct (step_transition w ev Hr) as (_ & [(E & _)|(_ & E)]);
      [congruence | congruence |].
    now rewrite E.
  - intros Hm Ho. rewrite step_open_from_closed; auto.
    now apply reachable_mounted.
  - intros Hm Ho. rewrite step_cancel; auto.
    now apply reachable_mounted.
  - intros Hm Ho n. revert w Hr Hm Ho.
    induction n as [|n IH]; intros w Hr Hm Ho.
    + cbn. now apply open_then_cancel.
    + change (run w (open_close_cycles (S (S n))))
        with (run (step (step w (Click OpenModalButton)) (Click CancelButton))
                  (open_close_cycles (S n))).
      destruct (open_then_cancel w Hr Hm Ho) as (Hr' & Hm' & Ho' & _).
      now apply IH.
Qed.

(** C5. In every reachable state there is exactly one keydown listener
    on the document while the component is mounted with the modal open,
    namely the closure the pending cleanup will remove, and none
    otherwise: closed, or torn down.  So listeners never accumulate. *)
Theorem C5_one_keydown_listener_exactly_while_open (w : world) :
  reachable w ->
  (mounted w = true -> isModalOpen w = true ->
     exists h, keydownListeners w = [h] /\ cleanup w = Some h)
  /\ (isModalOpen w = false -> keydownListeners w = [])
  /\ (mounted w = false -> keydownListeners w = [])
  /\ List.length (keydownListeners w) <= 1.
Proof.
  intros Hr. destruct (reachable_inv w Hr) as [(Hq & Hm & Hb & [Hc|Ho]) | Ht].
  - destruct Hc as (Hc & _ & _ & _ & _ & _ & Hl). rewrite Hl.
    repeat split; auto; congruence.
  - destruct Ho as (Ho & _ & _ & _ & _ & h & Hcl & Hl). rewrite Hl.
    repeat split; try congruence; cbn; [|lia].
    intros _ _. exists h. now split.
  - destruct Ht as (Hm & _ & Hl). rewrite Hl.
    repeat split; auto; congruence.
Qed.

(** C10. Right after the first mount, before any event, the modal is
    closed, [showModal] was never called, and the effect has already put
    the focus on the trigger button, whatever had it before. *)
Theorem C10_mount_moves_focus_to_the_trigger (strict : bool) (prior : option el) :
  let w := mount strict (initial prior) in
  isModalOpen w = false
  /\ showModalCalls w = 0
  /\ activeElement w = Some OpenModalButton.
Proof. rewrite mount_initial. repeat split. Qed.

(** A key other than Escape passes the React handlers unnoticed. *)
Lemma onKeyDown_not_escape e path : forall w,
  String.eqb (key e) "Escape" = false ->
  fold_left (fun w k => onKeyDown k e w) path w = w.
Proof.
  induction path as [|k path IH]; intros w He; cbn; [reflexivity|].
  rewrite <- (IH w He) at 2. f_equal.
  destruct k; cbn; try reflexivity. unfold handleKeyDown. now rewrite He.
Qed.

Lemma contentNode_open w :
  isModalOpen w = true -> modalContentRef w = Some ModalContent ->
  contentNode w = Some (modalContent (errors w)).
Proof.
  intros Ho Hr. unfold contentNode, documentTree. now rewrite Hr, Ho.
Qed.

(** The trap at work in the component: while the modal is open, the one
    registered listener sends Tab on the submit button to the title and
    Shift+Tab on the title to the submit button. *)
Lemma trap_in_the_dialog w :
  reachable w -> mounted w = true -> isModalOpen w = true ->
  (activeElement w = Some SubmitButton ->
     activeElement (step w (KeyDown tabKey)) = Some ModalTitle)
  /\ (activeElement w = Some ModalTitle ->
       activeElement (step w (KeyDown shiftTabKey)) = Some SubmitButton).
Proof.
  intros Hr Hm Ho.
  destruct (reachable_mounted w Hr Hm) as (Hq & _ & _ & [Hc|Hop]);
    [destruct Hc; congruence|].
  destruct Hop as (_ & _ & _ & Hcr & _ & h & _ & Hl).
  assert (Hstep : forall e, String.eqb (key e) "Escape" = false ->
            step w (KeyDown e) = runTabListener e w).
  { intros e He. unfold step. rewrite Hm. cbn [handle]. unfold keydown.
    rewrite onKeyDown_not_escape by exact He. rewrite Hl. cbn [fold_left].
    apply commit_idle. unfold runTabListener.
    now destruct (handleTabKey _ _ _). }
  split; intros Ha; rewrite Hstep by reflexivity;
    unfold runTabListener, handleTabKey;
    rewrite contentNode_open, focusable_of_modalContent, Ha by assumption;
    reflexivity.
Qed.

End StateMachine.

(** ** Opening: the dialog, its [open] attribute, the form *)

Section Opening.

Context {browser : Browser}.

(** Between two events the dialog element is in the document exactly when
    [isModalOpen] is true, and so is the ref to it. *)
Lemma dialog_rendered_iff_open w :
  reachable w -> mounted w = true ->
  in_tree ModalOverlay (documentTree w) = isModalOpen w
  /\ (modalRef w = Some ModalOverlay <-> isModalOpen w = true)
  /\ (dialogOpen w = None <-> isModalOpen w = false).
Proof.
  intros Hr Hm. destruct (reachable_mounted w Hr Hm) as (_ & _ & _ & [Hc|Ho]).
  - destruct Hc as (Hc & _ & Hr' & _ & Hd & _).
    unfold documentTree. rewrite Hc, Hr'. repeat split; try congruence.
    now destruct (dialogOpen w).
  - destruct Ho as (Ho & _ & Hr' & _ & Hd & _).
    unfold documentTree. rewrite Ho, Hr'. repeat split; try congruence.
    intros E. rewrite E in Hd. discriminate.
Qed.

(** From every closed state, opening leaves the new dialog without its
    [open] attribute: [showModal] was not called. *)
Lemma open_from_closed_skips_showModal w :
  reachable w -> mounted w = true -> isModalOpen w = false ->
  let w' := step w (Click OpenModalButton) in
  isModalOpen w' = true
  /\ dialogOpen w' = Some false
  /\ showModalCalls w' = showModalCalls w.
Proof.
  intros Hr Hm Ho w'. subst w'.
  rewrite step_open_from_closed;
    [repeat split | now apply reachable_mounted | exact Ho].
Qed.

(** Opening sets [isModalOpen] and resets the form, whatever was typed or
    reported before, from every state. *)
Lemma open_resets_the_form w :
  reachable w -> mounted w = true ->
  let w' := step w (Click OpenModalButton) in
  isModalOpen w' = true
  /\ formValues w' = defaultValues
  /\ errors w' = noErrors.
Proof.
  intros Hr Hm w'. subst w'.
  pose proof (reachable_mounted w Hr Hm) as Hs.
  destruct (isModalOpen w) eqn:Ho.
  - rewrite step_open_from_open by assumption. cbn.
    destruct (showModal_keeps (setIsModalOpen true w)) as (_ & -> & _).
    cbn. auto.
  - rewrite step_open_from_closed by assumption. repeat split.
Qed.

(** C1, at the first opening.  After the trigger is clicked on the freshly
    mounted page, [isModalOpen] is true and the dialog is in the document,
    but its [open] attribute is not set: [showModal] was never called,
    since the ref was still [null] when [openModal] ran. *)
Theorem C1_open_attribute_lags_behind_isModalOpen (strict : bool)
    (prior : option el) :
  let w := step (mount strict (initial prior)) (Click OpenModalButton) in
  isModalOpen w = true
  /\ in_tree ModalOverlay (documentTree w) = true
  /\ dialogOpen w = Some false
  /\ showModalCalls w = 0.
Proof.
  cbv zeta. rewrite step_open_from_closed.
  - rewrite mount_initial. repeat split.
  - apply mount_settled.
  - now rewrite mount_initial.
Qed.

(** C3, at an opening that follows a cancelled session with leftover
    input.  The second opening sets [isModalOpen] and the form is back to
    its defaults, but [showModal] has not been called a single time. *)
Theorem C3_open_resets_but_never_shows_modal (strict : bool)
    (prior : option el) (leftover : jsstring) :
  let w := run (mount strict (initial prior))
             [Click OpenModalButton; Change Name leftover;
              Click CancelButton; Click OpenModalButton] in
  formValues (run (mount strict (initial prior))
                [Click OpenModalButton; Change Name leftover; Click CancelButton])
  = Form.set Name leftover defaultValues
  /\ isModalOpen w = true
  /\ formValues w = defaultValues
  /\ errors w = noErrors
  /\ showModalCalls w = 0.
Proof.
  cbv zeta. rewrite mount_initial. repeat split.
Qed.

End Opening.

(** ** Submitting *)

Section Submitting.

Context {browser : Browser}.

Lemma error_of_validateForm f d :
  error_of f (validateForm d) = validateField (rules f) (get f d).
Proof. now destruct f. Qed.

Lemma errors_empty_noErrors e : errors_empty e = true <-> e = noErrors.
Proof.
  unfold noErrors.
  destruct e as [[?|] [?|] [?|] [?|]]; cbn; split; intros H;
    try discriminate; reflexivity.
Qed.

(** No error at all means that every field passes its own rules. *)
Lemma errors_empty_validateForm d :
  errors_empty (validateForm d) = true <->
  forall f, validateField (rules f) (get f d) = None.
Proof.
  rewrite errors_empty_noErrors. split.
  - intros E f. rewrite <- error_of_validateForm, E. now destruct f.
  - intros H. unfold validateForm.
    generalize (H Name), (H Email), (H Experience), (H Github).
    cbn [get]. now intros -> -> -> ->.
Qed.

Lemma queued_focusError w : queued (focusError w) = queued w.
Proof. unfold focusError. now destruct (filter _ fields). Qed.

Lemma errors_focusError w : errors (focusError w) = errors w.
Proof. unfold focusError. now destruct (filter _ fields). Qed.

Lemma console_focusError w : console (focusError w) = console w.
Proof. unfold focusError. now destruct (filter _ fields). Qed.

Lemma isModalOpen_focusError w : isModalOpen (focusError w) = isModalOpen w.
Proof. unfold focusError. now destruct (filter _ fields). Qed.

Lemma formValues_focusError w : formValues (focusError w) = formValues w.
Proof. unfold focusError. now destruct (filter _ fields). Qed.

(** The empty form passes the browser's validation. *)
Lemma checkValidity_defaultValues : checkValidity defaultValues = true.
Proof. reflexivity. Qed.


(** Reporting a failed validation touches nothing of the component but,
    possibly, the focus. *)
Lemma reportValidity_keeps w :
  isModalOpen (reportValidity w) = isModalOpen w
  /\ console (reportValidity w) = console w
  /\ errors (reportValidity w) = errors w
  /\ formValues (reportValidity w) = formValues w.
Proof.
  unfold reportValidity. destruct focusesInvalid; [|auto].
  destruct (controlOk _ _); cbn; auto.
Qed.

(** A submit attempt with an invalid field: the errors are published, the
    callback is not reached and no state is queued. *)
Lemma step_submit_invalid w :
  settled w -> isModalOpen w = true ->
  checkValidity (formValues w) = true ->
  errors_empty (validateForm (formValues w)) = false ->
  step w (Click SubmitButton)
  = focusError (set_form (formValues w) (validateForm (formValues w)) true w).
Proof.
  intros (Hq & Hm & _) Ho Hok Hinv.
  unfold step. rewrite Hm. cbn [handle]. rewrite click_submit by exact Ho.
  unfold requestSubmit. rewrite Hok.
  unfold handleSubmit. rewrite Hinv.
  apply commit_idle. now rewrite queued_focusError.
Qed.








End Submitting.

(** ** The theorems at work on the sample sessions *)

Section Witnesses.

#[local] Existing Instance sampleBrowser.

Lemma C2_tab_wraps_witness :
  key tabKey = "Tab"
  /\ first_of (querySelectorAll focusableSelector (modalContent noErrors)) ModalTitle
  /\ last_of (querySelectorAll focusableSelector (modalContent noErrors)) SubmitButton
  /\ handleTabKey (Some (modalContent noErrors)) tabKey (Some SubmitButton)
     = Normal {| defaultPrevented := true; activeAfter := Some ModalTitle |}.
Proof.
  assert (Hf : first_of (querySelectorAll focusableSelector (modalContent noErrors))
                 ModalTitle) by reflexivity.
  assert (Hl : last_of (querySelectorAll focusableSelector (modalContent noErrors))
                 SubmitButton).
  { exists [ModalTitle; Control Name; Control Email; Control Experience;
            Control Github; CancelButton]. reflexivity. }
  split; [reflexivity|]. split; [exact Hf|]. split; [exact Hl|].
  exact (proj2 (proj1 (C2_tab_wraps_at_the_ends (modalContent noErrors) tabKey
                         (Some SubmitButton) eq_refl)
                  ModalTitle SubmitButton Hf Hl) eq_refl eq_refl).
Defined.

Lemma C6_no_focusable_witness :
  querySelectorAll focusableSelector bare_content = []
  /\ handleTabKey (Some bare_content) shiftTabKey None
     = Normal {| defaultPrevented := false; activeAfter := None |}.
Proof.
  split; [reflexivity|].
  apply (C6_no_focusable_element_is_a_noop bare_content shiftTabKey None).
  reflexivity.
Defined.

Lemma C4_focus_witness :
  reachable fresh
  /\ activeElement (step fresh (Click OpenModalButton)) = Some ModalTitle
  /\ activeElement (run fresh (open_close_cycles 3)) = Some OpenModalButton.
Proof.
  assert (Hr : reachable fresh) by (exists false, None, []; reflexivity).
  split; [exact Hr|]. split.
  - apply (proj1 (C4_focus_follows_the_modal fresh Hr) (Click OpenModalButton));
      vm_compute; reflexivity.
  - apply (proj2 (proj2 (proj2 (proj2 (C4_focus_follows_the_modal fresh Hr)))));
      vm_compute; reflexivity.
Defined.

Lemma C5_listener_witness :
  reachable opened_once
  /\ exists h, keydownListeners opened_once = [h] /\ cleanup opened_once = Some h.
Proof.
  assert (Hr : reachable opened_once)
    by (exists false, None, [Click OpenModalButton]; reflexivity).
  split; [exact Hr|].
  apply (proj1 (C5_one_keydown_listener_exactly_while_open opened_once Hr));
    vm_compute; reflexivity.
Defined.




(** Where the claims as first stated fail: sessions the browser stops. *)




End Witnesses.

(** * Further properties of the component *)

(** ** The Tab handler on any input *)

Section TabHandler.

Lemma index_In arr i x : index arr i = JRef x -> In x arr.
Proof.
  unfold index. destruct (i <? 0)%Z; [discriminate|].
  destruct (nth_error arr (Z.to_nat i)) as [y|] eqn:E; [|discriminate].
  intros H. injection H as <-. eapply nth_error_In, E.
Qed.

(** X1. [handleTabKey] returns normally on every input.  When it does not
    prevent the default action it leaves the focus where it was; when it
    does, the key was Tab, the content ref was set and the focus is on an
    element of the set just queried.  A key other than Tab, or a [null]
    content ref, means nothing is prevented. *)
Theorem X1_handleTabKey_is_safe_and_contained (content : option node)
    (e : KeyboardEvent) (active : option el) :
  exists o,
    handleTabKey content e active = Normal o
    /\ (defaultPrevented o = false -> activeAfter o = active)
    /\ (defaultPrevented o = true ->
         exists root x,
           content = Some root /\ key e = "Tab" /\ activeAfter o = Some x
           /\ In x (querySelectorAll focusableSelector root))
    /\ (key e <> "Tab" \/ content = None -> defaultPrevented o = false).
Proof.
  pose proof (handleTabKey_never_throws content e active) as Hsafe.
  unfold handleTabKey in *.
  destruct (String.eqb_spec (key e) "Tab") as [Hk|Hk].
  2:{ eexists. split; [reflexivity|]. cbn. repeat split; auto; discriminate. }
  destruct content as [root|].
  2:{ eexists. split; [reflexivity|]. cbn. repeat split; auto; discriminate. }
  set (arr := querySelectorAll focusableSelector root) in *.
  destruct (shiftKey e && strict_eq (current active) (index arr 0)) eqn:B1.
  - destruct (index arr (Z.of_nat (List.length arr) - 1)) as [| |y] eqn:Ey;
      try (now destruct Hsafe).
    eexists. split; [reflexivity|]. cbn. repeat split; try discriminate.
    + intros _. exists root, y. repeat split; auto. eapply index_In, Ey.
    + intros [H|H]; [contradiction | discriminate].
  - destruct (negb (shiftKey e)
              && strict_eq (current active)
                   (index arr (Z.of_nat (List.length arr) - 1))) eqn:B2.
    + destruct (index arr 0) as [| |x] eqn:Ex; try (now destruct Hsafe).
      eexists. split; [reflexivity|]. cbn. repeat split; try discriminate.
      * intros _. exists root, x. repeat split; auto. eapply index_In, Ex.
      * intros [H|H]; [contradiction | discriminate].
    + eexists. split; [reflexivity|]. cbn. repeat split; auto; discriminate.
Qed.

End TabHandler.

(** ** Keys and clicks in the running component *)

Section KeysAndClicks.

Context {browser : Browser}.

#[local] Arguments el_eqb : simpl never.

Lemma set_activeElement_same w : set_activeElement (activeElement w) w = w.
Proof. now destruct w. Qed.

Lemma open_state_facts w :
  reachable w -> mounted w = true -> isModalOpen w = true ->
  queued w = None /\ modalRef w = Some ModalOverlay
  /\ modalContentRef w = Some ModalContent
  /\ exists h, keydownListeners w = [h].
Proof.
  intros Hr Hm Ho.
  destruct (reachable_mounted w Hr Hm) as (Hq & _ & _ & [Hc|Hop]);
    [destruct Hc; congruence|].
  destruct Hop as (_ & _ & Hmr & Hcr & _ & h & _ & Hl). eauto 6.
Qed.

Lemma closed_state_facts w :
  reachable w -> mounted w = true -> isModalOpen w = false ->
  queued w = None /\ keydownListeners w = [].
Proof.
  intros Hr Hm Ho.
  destruct (reachable_mounted w Hr Hm) as (Hq & _ & _ & [Hc|Hop]);
    [|destruct Hop; congruence].
  destruct Hc as (_ & _ & _ & _ & _ & _ & Hl). auto.
Qed.

(** While the modal is open, a key other than Escape only reaches the
    registered Tab listener. *)
Lemma step_keydown_open w e :
  reachable w -> mounted w = true -> isModalOpen w = true ->
  String.eqb (key e) "Escape" = false ->
  step w (KeyDown e) = runTabListener e w.
Proof.
  intros Hr Hm Ho He.
  destruct (open_state_facts w Hr Hm Ho) as (Hq & _ & _ & h & Hl).
  unfold step. rewrite Hm. cbn [handle]. unfold keydown.
  rewrite onKeyDown_not_escape by exact He. rewrite Hl. cbn [fold_left].
  apply commit_idle. unfold runTabListener.
  now destruct (handleTabKey _ _ _).
Qed.

Lemma first_of_dialog :
  index [ModalTitle; Control Name; Control Email; Control Experience;
         Control Github; CancelButton; SubmitButton] 0
  = JRef ModalTitle.
Proof. reflexivity. Qed.

Lemma last_of_dialog :
  index [ModalTitle; Control Name; Control Email; Control Experience;
         Control Github; CancelButton; SubmitButton]
        (Z.of_nat
           (List.length
              [ModalTitle; Control Name; Control Email; Control Experience;
               Control Github; CancelButton; SubmitButton]) - 1)
  = JRef SubmitButton.
Proof. reflexivity. Qed.

(** X2. In every reachable state with the modal open, the focusable set
    of the dialog is the title, the four controls and the two buttons,
    whatever errors are shown.  Tab on the submit button moves the focus
    to the title and Shift+Tab on the title moves it to the submit button;
    Tab anywhere else, and Shift+Tab anywhere else, change nothing. *)
Theorem X2_focus_trap_in_the_open_modal (w : world) :
  reachable w -> mounted w = true -> isModalOpen w = true ->
  (exists root, contentNode w = Some root
                /\ querySelectorAll focusableSelector root = dialogFocusable)
  /\ (activeElement w = Some SubmitButton ->
       activeElement (step w (KeyDown tabKey)) = Some ModalTitle)
  /\ (activeElement w = Some ModalTitle ->
       activeElement (step w (KeyDown shiftTabKey)) = Some SubmitButton)
  /\ (activeElement w <> Some SubmitButton -> step w (KeyDown tabKey) = w)
  /\ (activeElement w <> Some ModalTitle -> step w (KeyDown shiftTabKey) = w).
Proof.
  intros Hr Hm Ho.
  destruct (open_state_facts w Hr Hm Ho) as (Hq & _ & Hcr & _).
  pose proof (contentNode_open w Ho Hcr) as Hcn.
  split.
  { exists (modalContent (errors w)). split; [exact Hcn|].
    apply focusable_of_modalContent. }
  repeat apply conj; intros Ha;
    rewrite step_keydown_open by (assumption || reflexivity);
    unfold runTabListener, handleTabKey;
    rewrite Hcn, focusable_of_modalContent; cbv zeta;
    rewrite first_of_dialog, last_of_dialog.
  - rewrite Ha. reflexivity.
  - rewrite Ha. reflexivity.
  - cbn. destruct (activeElement w) as [a|] eqn:E; cbn.
    + destruct (el_eqb a SubmitButton) eqn:Ea.
      * apply el_eqb_eq in Ea. congruence.
      * rewrite <- E. apply set_activeElement_same.
    + rewrite <- E. apply set_activeElement_same.
  - cbn. destruct (activeElement w) as [a|] eqn:E; cbn.
    + destruct (el_eqb a ModalTitle) eqn:Ea.
      * apply el_eqb_eq in Ea. congruence.
      * rewrite <- E. apply set_activeElement_same.
    + rewrite <- E. apply set_activeElement_same.
Qed.

Lemma escape_reaches_the_dialog errs a s w :
  In a dialogFocusable ->
  fold_left (fun w k => onKeyDown k (escapeKey s) w)
    (match path_to a (render true errs) with Some p => p | None => [] end) w
  = closeModal w.
Proof.
  intros Hin. unfold dialogFocusable in Hin.
  destruct errs as [[?|] [?|] [?|] [?|]]; cbn in Hin;
    repeat (destruct Hin as [<-|Hin]; [reflexivity|]); contradiction.
Qed.

(** X3. In every reachable state with the modal open and the focus on any
    focusable element of the dialog, pressing Escape (with or without
    Shift) closes the modal: the dialog's [close] is called once, the
    keydown listener is removed and the focus returns to the trigger. *)
Theorem X3_escape_closes_the_modal (w : world) (a : el) (shift : bool) :
  reachable w -> mounted w = true -> isModalOpen w = true ->
  activeElement w = Some a -> In a dialogFocusable ->
  let w' := step w (KeyDown (escapeKey shift)) in
  isModalOpen w' = false
  /\ closeCalls w' = S (closeCalls w)
  /\ keydownListeners w' = []
  /\ activeElement w' = Some OpenModalButton
  /\ formValues w' = formValues w /\ console w' = console w.
Proof.
  intros Hr Hm Ho Ha Hin w'. subst w'.
  pose proof (reachable_mounted w Hr Hm) as Hs.
  destruct (open_state_facts w Hr Hm Ho) as (Hq & Hmr & _ & h & Hl).
  assert (E : step w (KeyDown (escapeKey shift)) = closed_again (close w)).
  { unfold step. rewrite Hm. cbn [handle]. unfold keydown.
    rewrite Ha. unfold documentTree. rewrite Ho.
    rewrite escape_reaches_the_dialog by exact Hin.
    assert (Hl' : keydownListeners (closeModal w) = [h]).
    { unfold closeModal. cbn. rewrite Hmr. exact Hl. }
    rewrite Hl'. cbn [fold_left]. unfold runTabListener, handleTabKey.
    cbn [key escapeKey String.eqb Ascii.eqb Bool.eqb activeAfter].
    rewrite set_activeElement_same. now apply commit_closeModal. }
  rewrite E. repeat split.
Qed.

Lemma keydown_handlers_closed a errs e w :
  fold_left (fun w k => onKeyDown k e w)
    (match path_to a (render false errs) with Some p => p | None => [] end) w
  = w.
Proof.
  unfold render. cbn.
  destruct (el_eqb a ModalPage) eqn:E1; [apply el_eqb_eq in E1; subst; reflexivity|].
  destruct (el_eqb a OpenModalButton) eqn:E2;
    [apply el_eqb_eq in E2; subst; reflexivity | reflexivity].
Qed.

(** X4. While the modal is closed no key does anything: the dialog and
    its Escape handler are not in the document, and no keydown listener
    is registered. *)
Theorem X4_keys_do_nothing_while_closed (w : world) (e : KeyboardEvent) :
  reachable w -> mounted w = true -> isModalOpen w = false ->
  step w (KeyDown e) = w.
Proof.
  intros Hr Hm Ho.
  destruct (closed_state_facts w Hr Hm Ho) as (Hq & Hl).
  unfold step. rewrite Hm. cbn [handle].
  assert (Hk : keydown e w = w).
  { unfold keydown, documentTree. rewrite Ho.
    destruct (activeElement w) as [a|].
    - rewrite keydown_handlers_closed, Hl. reflexivity.
    - cbn. rewrite Hl. reflexivity. }
  rewrite Hk. now apply commit_idle.
Qed.

(** A click anywhere in the content other than on the two buttons runs
    no handler that changes anything: it is stopped at the content. *)
Lemma inert_click w t :
  isModalOpen w = true ->
  In t (keys (modalContent (errors w))) ->
  t <> CancelButton -> t <> SubmitButton ->
  click t w = w.
Proof.
  intros Ho Hin Hc Hs. unfold click, documentTree. rewrite Ho.
  revert Hin. destruct (errors w) as [[?|] [?|] [?|] [?|]]; cbn; intros Hin;
    repeat (destruct Hin as [<-|Hin]; [try reflexivity; congruence|]);
    contradiction.
Qed.

(** X5. In every reachable state with the modal open, a click on the
    backdrop (the dialog element itself) closes the modal and returns the
    focus to the trigger, while a click on any element inside the content
    other than the Cancel and Submit buttons changes nothing at all. *)
Theorem X5_backdrop_click_closes_content_click_does_not (w : world) :
  reachable w -> mounted w = true -> isModalOpen w = true ->
  (let w' := step w (Click ModalOverlay) in
   isModalOpen w' = false /\ activeElement w' = Some OpenModalButton
   /\ keydownListeners w' = [] /\ console w' = console w)
  /\
  (forall t, In t (keys (modalContent (errors w))) ->
             t <> CancelButton -> t <> SubmitButton ->
             step w (Click t) = w).
Proof.
  intros Hr Hm Ho.
  pose proof (reachable_mounted w Hr Hm) as Hs.
  destruct (open_state_facts w Hr Hm Ho) as (Hq & Hmr & _).
  split.
  - cbv zeta. unfold step. rewrite Hm. cbn [handle].
    rewrite click_backdrop by assumption.
    rewrite commit_closeModal by assumption. repeat split.
  - intros t Hin Hc Hsb. unfold step. rewrite Hm. cbn [handle].
    rewrite inert_click by assumption. now apply commit_idle.
Qed.

(** X6. In every reachable state with the modal open, Cancel closes the
    modal without validating or submitting: nothing is logged, the typed
    values and the shown errors stay as they are, the dialog's [close] is
    called once and the focus returns to the trigger. *)
Theorem X6_cancel_closes_without_submitting (w : world) :
  reachable w -> mounted w = true -> isModalOpen w = true ->
  let w' := step w (Click CancelButton) in
  isModalOpen w' = false
  /\ console w' = console w
  /\ formValues w' = formValues w /\ errors w' = errors w
  /\ closeCalls w' = S (closeCalls w)
  /\ activeElement w' = Some OpenModalButton.
Proof.
  intros Hr Hm Ho w'. subst w'.
  rewrite step_cancel; [repeat split | now apply reachable_mounted | exact Ho].
Qed.

End KeysAndClicks.

(** ** The dialog and the form across openings *)

Section Openings.

Context {browser : Browser}.

(** X7. In every reachable state of the mounted component the dialog is
    in the document exactly when [isModalOpen] is true, and the three
    refs into the dialog are attached exactly then; the ref to the trigger
    is always attached. *)
Theorem X7_dialog_and_refs_follow_isModalOpen (w : world) :
  reachable w -> mounted w = true ->
  in_tree ModalOverlay (documentTree w) = isModalOpen w
  /\ openButtonRef w = Some OpenModalButton
  /\ modalRef w = (if isModalOpen w then Some ModalOverlay else None)
  /\ modalTitleRef w = (if isModalOpen w then Some ModalTitle else None)
  /\ modalContentRef w = (if isModalOpen w then Some ModalContent else None)
  /\ (dialogOpen w = None <-> isModalOpen w = false).
Proof.
  intros Hr Hm.
  destruct (reachable_mounted w Hr Hm) as (_ & _ & Hb & [Hc|Ho]).
  - destruct Hc as (Hc & Ht & Hmr & Hcr & Hd & _).
    unfold documentTree. rewrite Hc, Ht, Hmr, Hcr. repeat split; auto.
    now destruct (dialogOpen w).
  - destruct Ho as (Ho & Ht & Hmr & Hcr & Hd & _).
    unfold documentTree. rewrite Ho, Ht, Hmr, Hcr. repeat split; auto;
      try discriminate.
    intros E. rewrite E in Hd. discriminate.
Qed.

(** X8. From every reachable state of the mounted component, a click on
    the trigger leaves the modal open with the form back to its defaults,
    no error shown and the submit flag cleared.  [showModal] is called
    only if the modal was already open, so afterwards the dialog's [open]
    attribute is set exactly in that case. *)
Theorem X8_trigger_click_from_any_state (w : world) :
  reachable w -> mounted w = true ->
  let w' := step w (Click OpenModalButton) in
  isModalOpen w' = true
  /\ formValues w' = defaultValues /\ errors w' = noErrors
  /\ isSubmitted w' = false
  /\ console w' = console w
  /\ showModalCalls w'
     = (if isModalOpen w then S (showModalCalls w) else showModalCalls w)
  /\ dialogOpen w' = Some (isModalOpen w).
Proof.
  intros Hr Hm w'. subst w'.
  pose proof (reachable_mounted w Hr Hm) as Hs.
  destruct (isModalOpen w) eqn:Ho.
  - rewrite step_open_from_open by assumption.
    destruct Hs as (_ & _ & _ & [Hc|Hop]); [destruct Hc; congruence|].
    destruct Hop as (_ & _ & _ & _ & Hd & _).
    unfold showModal.
    destruct (dialogFocusDelegate (documentTree (setIsModalOpen true w)));
      cbn; destruct (dialogOpen w) as [[|]|] eqn:E; try discriminate; cbn;
      repeat split; auto.
  - rewrite step_open_from_closed by assumption. repeat split.
Qed.

(** The state a click on the trigger leads to is again one of the mounted
    component, open, with the default values and the same log. *)
Lemma after_trigger_click w :
  reachable w -> mounted w = true ->
  let w1 := step w (Click OpenModalButton) in
  reachable w1 /\ mounted w1 = true /\ isModalOpen w1 = true
  /\ formValues w1 = defaultValues /\ console w1 = console w.
Proof.
  intros Hr Hm w1. subst w1.
  split; [now apply reachable_step|].
  pose proof (reachable_mounted w Hr Hm) as Hs.
  destruct (isModalOpen w) eqn:Ho.
  - rewrite step_open_from_open by assumption. cbn.
    destruct (showModal_keeps (setIsModalOpen true w))
      as (_ & -> & _ & -> & _).
    rewrite mounted_showModal. cbn. auto.
  - rewrite step_open_from_closed by assumption. cbn. auto.
Qed.

(** X9. From every reachable state of the mounted component, opening the
    modal and submitting at once fails on exactly the three mandatory
    fields, each with its required-field message; the modal stays open and
    nothing is logged. *)
Theorem X9_submitting_the_untouched_form (w : world) :
  reachable w -> mounted w = true ->
  let w' := run w [Click OpenModalButton; Click SubmitButton] in
  errors w' = requiredErrors
  /\ isModalOpen w' = true
  /\ console w' = console w.
Proof.
  intros Hr Hm w'. subst w'. cbn [run fold_left].
  destruct (after_trigger_click w Hr Hm) as (Hr1 & Hm1 & Ho & Hv & Hc).
  set (w1 := step w (Click OpenModalButton)) in *.
  pose proof (reachable_mounted w1 Hr1 Hm1) as Hs1.
  rewrite step_submit_invalid;
    [| exact Hs1 | exact Ho | now rewrite Hv | now rewrite Hv].
  rewrite errors_focusError, isModalOpen_focusError, console_focusError.
  cbn [errors isModalOpen console set_form]. rewrite Hv, Ho, Hc.
  repeat split.
Qed.

End Openings.

(** ** What the rules let through *)

Section Rules.

Ltac unfold_rules :=
  unfold validateField, checkRequired, checkMinLength, checkPattern, orElse;
  cbn [rules required minLength pattern isEmpty negb andb].

Lemma name_rule v : validateField (rules Name) v = None <-> 2 <= List.length v.
Proof.
  destruct v as [|c [|d v]].
  - cbn. split; [discriminate | lia].
  - cbn. split; [discriminate | lia].
  - unfold_rules. unfold jslength. cbn [List.length].
    destruct (Z.ltb_spec (Z.of_nat (S (S (List.length v)))) 2); [lia|].
    split; [lia | reflexivity].
Qed.

Lemma email_rule v :
  validateField (rules Email) v = None <-> local_at_domain_tld v.
Proof.
  rewrite <- emailPattern_language. destruct v as [|c v].
  - cbn. split; discriminate.
  - unfold_rules. destruct (test emailPattern (c :: v)); cbn; split;
      congruence.
Qed.

Lemma experience_rule v : validateField (rules Experience) v = None <-> v <> [].
Proof. destruct v; cbn; split; congruence. Qed.

Lemma github_rule v :
  validateField (rules Github) v = None <-> v = [] \/ github_accepted v.
Proof.
  unfold github_accepted. rewrite <- githubPattern_language.
  destruct v as [|c v].
  - cbn. split; auto.
  - unfold_rules. destruct (test githubPattern (c :: v)); cbn; split;
      try congruence; auto.
    intros [H|H]; congruence.
Qed.

(** Validity of a record, field by field. *)
Lemma valid_record_fields d :
  errors_empty (validateForm d) = true ->
  2 <= List.length (name d)
  /\ local_at_domain_tld (email d)
  /\ experience d <> []
  /\ (github d = [] \/ github_accepted (github d)).
Proof.
  rewrite errors_empty_validateForm. intros H.
  pose proof (H Name) as Hn. pose proof (H Email) as He.
  pose proof (H Experience) as Hx. pose proof (H Github) as Hg.
  cbn [get] in *.
  apply name_rule in Hn. apply email_rule in He.
  apply experience_rule in Hx. apply github_rule in Hg. auto.
Qed.

(** X10. A record passes the validation of the form exactly when its name
    has at least two code units, its email is of the shape
    [local@domain.tld], its experience is not empty, and its github value
    is empty or made of [https://], an optional [www.], [github.com/], a
    non-empty handle of letters, digits and hyphens, and any rest that
    stays on one line. *)
Theorem X10_what_the_rules_let_through (d : FormData) :
  errors_empty (validateForm d) = true <->
  2 <= List.length (name d)
  /\ local_at_domain_tld (email d)
  /\ experience d <> []
  /\ (github d = [] \/ github_accepted (github d)).
Proof.
  rewrite errors_empty_validateForm. split.
  - intros H.
    pose proof (H Name) as Hn. pose proof (H Email) as He.
    pose proof (H Experience) as Hx. pose proof (H Github) as Hg.
    cbn [get] in *.
    apply name_rule in Hn. apply email_rule in He.
    apply experience_rule in Hx. apply github_rule in Hg. auto.
  - intros (Hn & He & Hx & Hg) f. destruct f; cbn [get].
    + now apply name_rule.
    + now apply email_rule.
    + now apply experience_rule.
    + now apply github_rule.
Qed.

Lemma count_at_address l :
  Forall address_char l -> count_occ N.eq_dec l (ch "@") = 0.
Proof.
  induction 1 as [|c l [_ Hc] _ IH]; [reflexivity|].
  cbn [count_occ]. destruct (N.eq_dec c (ch "@")); [congruence | exact IH].
Qed.

Lemma no_space_address l :
  Forall address_char l -> Forall (fun c => is_js_whitespace c = false) l.
Proof. intros H. eapply Forall_impl; [|exact H]. now intros c [Hc _]. Qed.

(** X11. An email the form accepts contains exactly one [@] and no white
    space, and is not empty. *)
Theorem X11_accepted_email_has_one_at_and_no_space (v : jsstring) :
  validateField (rules Email) v = None ->
  count_occ N.eq_dec v (ch "@") = 1
  /\ Forall (fun c => is_js_whitespace c = false) v
  /\ v <> [].
Proof.
  intros H. apply email_rule in H as (l & d & t & -> & Hl & _ & _ & Al & Ad & At).
  repeat split.
  - rewrite count_occ_app. cbn [count_occ].
    destruct (N.eq_dec (ch "@") (ch "@")); [|congruence].
    rewrite count_occ_app. cbn [count_occ].
    destruct (N.eq_dec (ch ".") (ch "@")); [discriminate|].
    rewrite !count_at_address by assumption. reflexivity.
  - apply Forall_app. split; [now apply no_space_address|].
    constructor; [reflexivity|].
    apply Forall_app. split; [now apply no_space_address|].
    constructor; [reflexivity | now apply no_space_address].
  - now destruct l.
Qed.

End Rules.

(** ** What reaches the submit callback *)

Section Logged.

Context {browser : Browser}.

Lemma keeps_refl w : keeps w w.
Proof. split; auto. Qed.

Lemma keeps_trans w1 w2 w3 : keeps w1 w2 -> keeps w2 w3 -> keeps w1 w3.
Proof.
  intros (C1 & F1) (C2 & F2). split; [congruence|].
  destruct F2 as [F2|F2]; [|now right].
  destruct F1 as [F1|F1]; [left | right]; congruence.
Qed.

Lemma keeps_openModal w : keeps w (openModal w).
Proof.
  unfold openModal, keeps. cbn.
  destruct (modalRef w); cbn; auto.
  destruct (showModal_keeps (setIsModalOpen true w)) as (_ & _ & _ & -> & _).
  cbn. auto.
Qed.

Lemma keeps_closeModal w : keeps w (closeModal w).
Proof.
  unfold closeModal, keeps. cbn.
  destruct (modalRef w); cbn; auto.
Qed.

Lemma keeps_onClick k t w : keeps w (fst (onClick k t w)).
Proof.
  destruct k; cbn; try apply keeps_refl.
  - apply keeps_openModal.
  - unfold handleOverlayClick.
    destruct (strict_eq _ _); [apply keeps_closeModal | apply keeps_refl].
  - apply keeps_closeModal.
Qed.

Lemma keeps_propagateClick path t : forall w, keeps w (propagateClick path t w).
Proof.
  induction path as [|k rest IH]; intros w; cbn; [apply keeps_refl|].
  pose proof (keeps_onClick k t w) as Hk.
  destruct (onClick k t w) as [w' stop]; cbn in Hk.
  destruct stop; [exact Hk|]. eapply keeps_trans; [exact Hk | apply IH].
Qed.

Lemma keeps_fold {A} (f : world -> A -> world) (l : list A) :
  (forall w a, keeps w (f w a)) -> forall w, keeps w (fold_left f l w).
Proof.
  intros Hf. induction l as [|a l IH]; intros w; cbn; [apply keeps_refl|].
  eapply keeps_trans; [apply Hf | apply IH].
Qed.

Lemma keeps_runTabListener e w : keeps w (runTabListener e w).
Proof.
  unfold runTabListener, keeps.
  destruct (handleTabKey _ _ _); cbn; auto.
Qed.

Lemma keeps_keydown e w : keeps w (keydown e w).
Proof.
  unfold keydown.
  set (path := match activeElement w with
               | Some t => match path_to t (documentTree w) with
                           | Some p => p
                           | None => []
                           end
               | None => []
               end).
  eapply keeps_trans.
  - apply (keeps_fold (fun w k => onKeyDown k e w) path).
    intros w' k. destruct k; cbn; try apply keeps_refl.
    unfold handleKeyDown.
    destruct (String.eqb _ _); [apply keeps_closeModal | apply keeps_refl].
  - apply (keeps_fold (fun w (_ : nat) => runTabListener e w)).
    intros w' _. apply keeps_runTabListener.
Qed.

(** What [handleSubmit] does to the values and the log. *)
Lemma handleSubmit_data w :
  formValues (handleSubmit w) = formValues w
  /\ (console (handleSubmit w) = console w
      \/ (console (handleSubmit w) = console w ++ [formValues w]
          /\ errors_empty (validateForm (formValues w)) = true)).
Proof.
  unfold handleSubmit, onSubmit.
  destruct (errors_empty (validateForm (formValues w))) eqn:E.
  - unfold closeModal. cbn. destruct (modalRef w); cbn; auto.
  - rewrite formValues_focusError, console_focusError. cbn. auto.
Qed.

(** A commit and a teardown touch neither the values nor the log. *)
Lemma data_effect w :
  formValues (effect w) = formValues w /\ console (effect w) = console w.
Proof.
  unfold effect, focus_current, addEventListener.
  destruct (isModalOpen w); cbn.
  - destruct (modalTitleRef w); cbn;
      destruct (existsb _ _); cbn; auto.
  - destruct (openButtonRef w); cbn; auto.
Qed.

Lemma data_runCleanup w :
  formValues (runCleanup w) = formValues w
  /\ console (runCleanup w) = console w.
Proof. unfold runCleanup. destruct (cleanup w); cbn; auto. Qed.

Lemma data_commit w :
  formValues (commit w) = formValues w /\ console (commit w) = console w.
Proof.
  unfold commit. destruct (queued w) as [b|]; [|auto].
  destruct (Bool.eqb b (isModalOpen w)); [cbn; auto|].
  destruct (data_effect (runCleanup (reconcile b (set_queued None w))))
    as (-> & ->).
  destruct (data_runCleanup (reconcile b (set_queued None w))) as (-> & ->).
  split; reflexivity.
Qed.

Lemma data_unmount w :
  formValues (unmount w) = formValues w /\ console (unmount w) = console w.
Proof.
  unfold unmount. cbn. apply data_runCleanup.
Qed.

Lemma clean_keeps w w' : keeps w w' -> clean w -> clean w'.
Proof.
  intros (Hc & Hf) (Hx & Hl). split; [|now rewrite Hc].
  destruct Hf as [-> | ->]; [exact Hx | now left].
Qed.

Lemma clean_handleSubmit w : clean w -> clean (handleSubmit w).
Proof.
  intros (Hx & Hl). destruct (handleSubmit_data w) as (Hv & Hc).
  split; [now rewrite Hv|].
  destruct Hc as [-> | (-> & Hvalid)]; [exact Hl|].
  apply Forall_app. split; [exact Hl|]. constructor; [|constructor].
  apply valid_record_fields in Hvalid as (Hn & He & Hne & Hg).
  repeat split; auto.
  destruct Hx as [Hx|Hx]; [congruence | exact Hx].
Qed.

Lemma clean_handle ev w : clean w -> clean (handle ev w).
Proof.
  intros Hw. destruct ev as [t|e|f v|to|]; cbn [handle].
  - unfold click. destruct (path_to t (documentTree w)) as [path|]; [|exact Hw].
    assert (Hp : clean (propagateClick path t w))
      by (eapply clean_keeps; [apply keeps_propagateClick | exact Hw]).
    destruct (el_eqb t SubmitButton); [|exact Hp].
    unfold requestSubmit.
    destruct (checkValidity _); [now apply clean_handleSubmit|].
    destruct (reportValidity_keeps (propagateClick path t w))
      as (_ & Hc & _ & Hv).
    destruct Hp as (Hx & Hl). split; [now rewrite Hv | now rewrite Hc].
  - eapply clean_keeps; [apply keeps_keydown | exact Hw].
  - unfold change.
    destruct (in_tree (Control f) (documentTree w)); cbn [andb]; [|exact Hw].
    destruct Hw as (Hx & Hl).
    destruct f; cbn [andb]; try (split; [exact Hx | exact Hl]).
    destruct (existsb (jsstring_eqb v) experienceOptions) eqn:E;
      [|split; [exact Hx | exact Hl]].
    split; [|exact Hl]. cbn [onChange formValues set_form Form.set experience].
    right. apply existsb_exists in E as (o & Ho & Eo).
    apply jsstring_eqb_eq in Eo. now subst.
  - unfold focusMoved. destruct (_ || _); exact Hw.
  - exact Hw.
Qed.

Lemma clean_step w ev : clean w -> clean (step w ev).
Proof.
  intros Hw. unfold step. destruct (mounted w); [|exact Hw].
  assert (Hc : clean (commit (handle ev w))).
  { pose proof (clean_handle ev w Hw) as (Hx & Hl).
    destruct (data_commit (handle ev w)) as (Hv & Hc).
    split; [now rewrite Hv | now rewrite Hc]. }
  destruct ev; try exact Hc.
  destruct Hw as (Hx & Hl). destruct (data_unmount w) as (Hv & Hcn).
  split; [now rewrite Hv | now rewrite Hcn].
Qed.

Lemma clean_reachable w : reachable w -> clean w.
Proof.
  intros (strict & prior & evs & ->).
  assert (H0 : clean (mount strict (initial prior))).
  { rewrite mount_initial. split; [now left | constructor]. }
  revert H0. generalize (mount strict (initial prior)) as w0.
  induction evs as [|ev evs IH]; intros w0 H0; cbn; [exact H0|].
  apply IH. now apply clean_step.
Qed.

(** X12. In every reachable state, each record the submit callback has
    logged passes all the rules of the form, with an experience that is
    one of the three offered values; and the experience held by the form
    is the empty default or one of those values. *)
Theorem X12_only_acceptable_records_are_logged (w : world) :
  reachable w ->
  Forall acceptable (console w)
  /\ In (experience (formValues w)) ([] :: experienceOptions).
Proof.
  intros Hr. destruct (clean_reachable w Hr) as (Hx & Hl). now split.
Qed.

End Logged.

(** ** Identifiers and the relations built on them *)

Section Identifiers.

Lemma nodupb_NoDup l : nodupb l = true -> NoDup l.
Proof.
  induction l as [|x l IH]; cbn; [constructor|].
  intros H. apply andb_true_iff in H as [Hx Hl].
  constructor; [|now apply IH].
  intros Hin. apply negb_true_iff in Hx.
  assert (existsb (String.eqb x) l = true); [|congruence].
  apply existsb_exists. exists x. split; [exact Hin | apply String.eqb_refl].
Qed.

(** X13. Whatever errors are shown, in the rendered open modal no two
    elements share an [id]; the dialog is labelled by the title and
    described by the description; each label points to its control; a
    control in error is flagged invalid and described by its own error
    region, and a control without error is flagged valid, describes
    nothing and has no error region. *)
Theorem X13_every_id_reference_resolves (errs : FieldErrors) :
  let tree := render true errs in
  NoDup (ids tree)
  /\ resolve ModalOverlay "aria-labelledby" tree = Some ModalTitle
  /\ resolve ModalOverlay "aria-describedby" tree = Some ModalDescription
  /\ (forall f, resolve (Label f) "for" tree = Some (Control f))
  /\ (forall f,
        match error_of f errs with
        | Some _ =>
            resolve (Control f) "aria-describedby" tree = Some (ErrorMessage f)
            /\ attribute_of (Control f) "aria-invalid" tree = Some "true"
        | None =>
            attribute_of (Control f) "aria-describedby" tree = None
            /\ attribute_of (Control f) "aria-invalid" tree = Some "false"
            /\ in_tree (ErrorMessage f) tree = false
        end).
Proof.
  cbv zeta. repeat apply conj.
  - apply nodupb_NoDup.
    destruct errs as [[?|] [?|] [?|] [?|]]; reflexivity.
  - reflexivity.
  - reflexivity.
  - intros f. destruct f, errs as [[?|] [?|] [?|] [?|]]; reflexivity.
  - intros f. destruct f, errs as [[?|] [?|] [?|] [?|]]; cbn [error_of];
      repeat split; reflexivity.
Qed.

End Identifiers.

(** ** Mounting under StrictMode *)

Section Strict.

Context {browser : Browser}.

(** X14. The second effect run that StrictMode adds in a development
    build changes nothing: with or without it the mounted page is in the
    same state, and so is every state reached from there. *)
Theorem X14_strict_mode_mount_is_harmless (prior : option el)
    (evs : list event) :
  run (mount true (initial prior)) evs = run (mount false (initial prior)) evs.
Proof.
  assert (E : mount true (initial prior) = mount false (initial prior)).
  { rewrite (mount_initial true), (mount_initial false). reflexivity. }
  rewrite E. reflexivity.
Qed.

End Strict.

(** ** The further properties at work on the sample sessions *)

Section MoreWitnesses.

#[local] Existing Instance sampleBrowser.

Lemma reachable_fresh : reachable fresh.
Proof. exists false, None, []. reflexivity. Defined.

Lemma reachable_opened_once : reachable opened_once.
Proof. exists false, None, [Click OpenModalButton]. reflexivity. Defined.

Lemma reachable_poorly_filled : reachable poorly_filled.
Proof.
  exists false, None,
    [Click OpenModalButton; Change Name (lit "A");
     Change Email (lit "not-an-email");
     Change Github (lit "https://gitlab.com/x")].
  reflexivity.
Defined.

Lemma reachable_submitted_once : reachable submitted_once.
Proof.
  exists false, None,
    [Click OpenModalButton; Change Name (lit "Jo Park");
     Change Email (lit "jo@x.com"); Change Experience (lit "0-3");
     Click SubmitButton].
  vm_compute. reflexivity.
Defined.

Lemma X1_handleTabKey_witness :
  key (escapeKey false) <> "Tab"
  /\ exists o,
       handleTabKey (Some (modalContent noErrors)) (escapeKey false)
         (Some SubmitButton) = Normal o
       /\ activeAfter o = Some SubmitButton.
Proof.
  assert (Hk : key (escapeKey false) <> "Tab") by discriminate.
  split; [exact Hk|].
  destruct (X1_handleTabKey_is_safe_and_contained
              (Some (modalContent noErrors)) (escapeKey false)
              (Some SubmitButton)) as (o & Ho & Hkeep & _ & Hother).
  exists o. split; [exact Ho|]. apply Hkeep, Hother. now left.
Defined.

Lemma X2_focus_trap_witness :
  reachable opened_once /\ mounted opened_once = true
  /\ isModalOpen opened_once = true
  /\ activeElement opened_once = Some ModalTitle
  /\ activeElement (step opened_once (KeyDown shiftTabKey)) = Some SubmitButton.
Proof.
  split; [exact reachable_opened_once|]. split; [reflexivity|].
  split; [reflexivity|]. split; [reflexivity|].
  apply (proj1 (proj2 (proj2 (X2_focus_trap_in_the_open_modal opened_once
                                reachable_opened_once eq_refl eq_refl)))).
  reflexivity.
Defined.

Lemma X3_escape_witness :
  reachable opened_once /\ activeElement opened_once = Some ModalTitle
  /\ In ModalTitle dialogFocusable
  /\ isModalOpen (step opened_once (KeyDown (escapeKey false))) = false.
Proof.
  assert (Hin : In ModalTitle dialogFocusable) by (left; reflexivity).
  split; [exact reachable_opened_once|]. split; [reflexivity|].
  split; [exact Hin|].
  apply (X3_escape_closes_the_modal opened_once ModalTitle false
           reachable_opened_once eq_refl eq_refl eq_refl Hin).
Defined.

Lemma X4_closed_keys_witness :
  reachable fresh /\ mounted fresh = true /\ isModalOpen fresh = false
  /\ step fresh (KeyDown (escapeKey false)) = fresh.
Proof.
  split; [exact reachable_fresh|]. split; [reflexivity|]. split; [reflexivity|].
  apply (X4_keys_do_nothing_while_closed fresh (escapeKey false)
           reachable_fresh eq_refl eq_refl).
Defined.

Lemma X5_clicks_witness :
  reachable opened_once
  /\ In ModalDescription (keys (modalContent (errors opened_once)))
  /\ step opened_once (Click ModalDescription) = opened_once
  /\ isModalOpen (step opened_once (Click ModalOverlay)) = false.
Proof.
  assert (Hin : In ModalDescription (keys (modalContent (errors opened_once))))
    by (vm_compute; auto).
  split; [exact reachable_opened_once|]. split; [exact Hin|].
  destruct (X5_backdrop_click_closes_content_click_does_not opened_once
              reachable_opened_once eq_refl eq_refl) as (Hback & Hin').
  split.
  - apply Hin'; [exact Hin | discriminate | discriminate].
  - apply Hback.
Defined.

Lemma X6_cancel_witness :
  reachable poorly_filled /\ mounted poorly_filled = true
  /\ isModalOpen poorly_filled = true
  /\ formValues (step poorly_filled (Click CancelButton))
     = formValues poorly_filled
  /\ isModalOpen (step poorly_filled (Click CancelButton)) = false.
Proof.
  split; [exact reachable_poorly_filled|]. split; [reflexivity|].
  split; [reflexivity|].
  destruct (X6_cancel_closes_without_submitting poorly_filled
              reachable_poorly_filled eq_refl eq_refl)
    as (Hc & _ & Hv & _).
  split; [exact Hv | exact Hc].
Defined.

Lemma X7_refs_witness :
  reachable opened_once /\ mounted opened_once = true
  /\ modalRef opened_once = Some ModalOverlay.
Proof.
  split; [exact reachable_opened_once|]. split; [reflexivity|].
  apply (proj1 (proj2 (proj2 (X7_dialog_and_refs_follow_isModalOpen opened_once
                                reachable_opened_once eq_refl)))).
Defined.

Lemma X8_trigger_witness :
  reachable poorly_filled /\ mounted poorly_filled = true
  /\ formValues (step poorly_filled (Click OpenModalButton)) = defaultValues
  /\ dialogOpen (step poorly_filled (Click OpenModalButton)) = Some true.
Proof.
  split; [exact reachable_poorly_filled|]. split; [reflexivity|].
  destruct (X8_trigger_click_from_any_state poorly_filled
              reachable_poorly_filled eq_refl)
    as (_ & Hv & _ & _ & _ & _ & Hd).
  split; [exact Hv | exact Hd].
Defined.

Lemma X9_untouched_witness :
  reachable fresh /\ mounted fresh = true
  /\ errors (run fresh [Click OpenModalButton; Click SubmitButton])
     = requiredErrors.
Proof.
  split; [exact reachable_fresh|]. split; [reflexivity|].
  apply (X9_submitting_the_untouched_form fresh reachable_fresh eq_refl).
Defined.

Lemma X11_email_witness :
  validateField (rules Email) (lit "a@b.co") = None
  /\ count_occ N.eq_dec (lit "a@b.co") (ch "@") = 1.
Proof.
  split; [reflexivity|].
  apply (X11_accepted_email_has_one_at_and_no_space (lit "a@b.co")).
  reflexivity.
Defined.

Lemma X12_logged_witness :
  reachable submitted_once
  /\ console submitted_once
     = [{| name := lit "Jo Park"; email := lit "jo@x.com";
           experience := lit "0-3"; github := lit "" |}]
  /\ Forall acceptable (console submitted_once).
Proof.
  split; [exact reachable_submitted_once|]. split; [reflexivity|].
  apply (X12_only_acceptable_records_are_logged submitted_once
           reachable_submitted_once).
Defined.

End MoreWitnesses.

(** ** The earlier version of the page *)

Section EarlierPage.

(** X15. In the earlier version of the page the dialog is rendered
    exactly when [isModalOpen] is true; its focusable set is the title,
    the four inputs and the two buttons, so the Tab handler wraps from the
    submit button to the title and back and leaves every other position
    alone; the dialog is labelled by the title and described by the
    description, and each label points to its input. *)
Theorem X15_earlier_page_trap_and_labels (e : KeyboardEvent)
    (active : option el) :
  let tree := Earlier.render true in
  let content := find_node ModalContent tree in
  (forall b, in_tree ModalOverlay (Earlier.render b) = b)
  /\ (exists root, content = Some root
                   /\ querySelectorAll focusableSelector root = dialogFocusable)
  /\ handleTabKey content e active
     = (if String.eqb (key e) "Tab" then
          if shiftKey e && strict_eq (current active) (JRef ModalTitle)
          then Normal {| defaultPrevented := true;
                         activeAfter := Some SubmitButton |}
          else if negb (shiftKey e)
                  && strict_eq (current active) (JRef SubmitButton)
          then Normal {| defaultPrevented := true;
                         activeAfter := Some ModalTitle |}
          else Normal {| defaultPrevented := false; activeAfter := active |}
        else Normal {| defaultPrevented := false; activeAfter := active |})
  /\ resolve ModalOverlay "aria-labelledby" tree = Some ModalTitle
  /\ resolve ModalOverlay "aria-describedby" tree = Some ModalDescription
  /\ (forall f, resolve (Label f) "for" tree = Some (Control f))
  /\ NoDup (ids tree).
Proof.
  cbv zeta. repeat apply conj.
  - intros b. now destruct b.
  - eexists. split; reflexivity.
  - change (find_node ModalContent (Earlier.render true))
      with (Some Earlier.modalContent).
    unfold handleTabKey.
    change (querySelectorAll focusableSelector Earlier.modalContent)
      with [ModalTitle; Control Name; Control Email; Control Experience;
            Control Github; CancelButton; SubmitButton].
    cbv zeta. rewrite first_of_dialog, last_of_dialog.
    destruct (String.eqb (key e) "Tab"); [|reflexivity].
    destruct (shiftKey e && strict_eq (current active) (JRef ModalTitle));
      [reflexivity|].
    destruct (negb (shiftKey e)
              && strict_eq (current active) (JRef SubmitButton)); reflexivity.
  - reflexivity.
  - reflexivity.
  - intros f. now destruct f.
  - apply nodupb_NoDup. reflexivity.
Qed.

End EarlierPage.
